(** * Clawpack tutorial, Chapter 3, spatially varying flux (classic): [setplot.py]

    The module holds the initial profile [qinit] and the analytic reference
    solution [qtrue] that the plot callback overlays on the computed
    solution.  Both are embedded once, over an abstract interface of the
    float64 operations they use, and the interface is instantiated twice:

    - [Exact.exact]: exact real arithmetic, extended with the IEEE special
      values an invalid operation yields (no rounding, no overflow);
    - [Binary64.binary64]: the kernel's binary64 numbers, reasoned about
      through the specification of the IEEE operations ([SpecFloat]) that
      they satisfy.

    The Python side is modelled with a store of objects (ndarrays, lists,
    tuples), references into it, and a state-and-exception monad. *)

From Stdlib Require Import ZArith Reals Lra Lia.
From Stdlib Require Floats.
From stdpp Require Import base list gmap strings.

(** ** The float64 operations used by the module *)

Class Float64 (F : Type) := {
  f_of_int : Z → F;          (* conversion of a Python int *)
  f_add : F → F → F;
  f_sub : F → F → F;
  f_mul : F → F → F;
  f_div : F → F → F;
  f_sqr : F → F;             (* [d ** 2] *)
  f_sqrt : F → F;            (* [np.sqrt] *)
  f_exp : F → F;             (* [np.exp] *)
  f_finite : F → bool;       (* neither an infinity nor a NaN *)
  f_ltb : F → F → bool;      (* [a < b] *)
  f_eqb : F → F → bool       (* [a == b] *)
}.

(** A decimal literal [m / 10^k] ([0.1] is [f_dec 1 1]): the quotient of two
    integers, both exact in float64 for the literals of this module. *)
Definition f_dec {F} {A : Float64 F} (m : Z) (k : nat) : F :=
  f_div (f_of_int m) (f_of_int (10 ^ Z.of_nat k)).


Definition with_exp {F} (e : F → F) (A : Float64 F) : Float64 F :=
  {| f_of_int := @f_of_int F A; f_add := @f_add F A; f_sub := @f_sub F A;
     f_mul := @f_mul F A; f_div := @f_div F A; f_sqr := @f_sqr F A;
     f_sqrt := @f_sqrt F A; f_exp := e;
     f_finite := @f_finite F A;
     f_ltb := @f_ltb F A; f_eqb := @f_eqb F A |}.

(** ** Exact arithmetic with the IEEE special values *)

Module Exact.

Inductive xreal := Fin (r : R) | PInf | NInf | NaN.

Definition Rltb (a b : R) : bool := if Rlt_dec a b then true else false.
Definition Reqb (a b : R) : bool := if Req_dec_T a b then true else false.

Definition inf_of (neg : bool) : xreal := if neg then NInf else PInf.

Definition is_neg (a : xreal) : bool :=
  match a with Fin x => Rltb x 0 | NInf => true | _ => false end.

Definition is_zero (a : xreal) : bool :=
  match a with Fin x => Reqb x 0 | _ => false end.

Definition xneg (a : xreal) : xreal :=
  match a with Fin x => Fin (- x) | PInf => NInf | NInf => PInf | NaN => NaN end.

Definition xabs (a : xreal) : xreal :=
  match a with Fin x => Fin (Rabs x) | PInf | NInf => PInf | NaN => NaN end.

Definition xadd (a b : xreal) : xreal :=
  match a, b with
  | NaN, _ | _, NaN => NaN
  | Fin x, Fin y => Fin (x + y)
  | PInf, NInf | NInf, PInf => NaN
  | PInf, _ | _, PInf => PInf
  | NInf, _ | _, NInf => NInf
  end.

Definition xsub (a b : xreal) : xreal := xadd a (xneg b).

Definition xmul (a b : xreal) : xreal :=
  match a, b with
  | NaN, _ | _, NaN => NaN
  | Fin x, Fin y => Fin (x * y)
  | _, _ => if is_zero a || is_zero b then NaN
            else inf_of (xorb (is_neg a) (is_neg b))
  end.

(** Division by zero gives an infinity ([0/0] is NaN); the sign of a zero
    is not represented, a zero divisor counts as [+0]. *)
Definition xdiv (a b : xreal) : xreal :=
  match a, b with
  | NaN, _ | _, NaN => NaN
  | Fin x, Fin y =>
      if Reqb y 0 then (if Reqb x 0 then NaN else inf_of (Rltb x 0))
      else Fin (x / y)
  | Fin _, _ => Fin 0
  | _, Fin _ => inf_of (xorb (is_neg a) (is_neg b))
  | _, _ => NaN
  end.

(** A division that is [xdiv] wherever the divisor is not zero. *)
Definition agree_off_zero (d : xreal → xreal → xreal) : Prop :=
  ∀ a b, b ≠ Fin 0 → d a b = xdiv a b.

Definition xsqrt (a : xreal) : xreal :=
  match a with
  | Fin x => if Rltb x 0 then NaN else Fin (sqrt x)
  | PInf => PInf
  | NInf | NaN => NaN
  end.

Definition xexp (a : xreal) : xreal :=
  match a with
  | Fin x => Fin (exp x)
  | PInf => PInf
  | NInf => Fin 0
  | NaN => NaN
  end.

Definition xltb (a b : xreal) : bool :=
  match a, b with
  | NaN, _ | _, NaN => false
  | Fin x, Fin y => Rltb x y
  | _, NInf | PInf, _ => false
  | _, _ => true
  end.

Definition xeqb (a b : xreal) : bool :=
  match a, b with
  | Fin x, Fin y => Reqb x y
  | PInf, PInf | NInf, NInf => true
  | _, _ => false
  end.

Definition xfinite (a : xreal) : bool :=
  match a with Fin _ => true | _ => false end.

#[export] Instance exact : Float64 xreal :=
  {| f_of_int z := Fin (IZR z);
     f_add := xadd; f_sub := xsub; f_mul := xmul; f_div := xdiv;
     f_sqr d := xmul d d;
     f_sqrt := xsqrt; f_exp := xexp;
     f_finite := xfinite;
     f_ltb := xltb; f_eqb := xeqb |}.

End Exact.

(** ** Binary64 *)

Module Binary64.

(** The float nearest to an integer. *)
Definition of_int (z : Z) : PrimFloat.float :=
  FloatOps.SF2Prim
    (SpecFloat.binary_normalize FloatOps.prec FloatOps.emax z 0 false).

Definition finite (x : PrimFloat.float) : bool :=
  negb (PrimFloat.is_nan x) && negb (PrimFloat.is_infinity x).

(** [np.exp] is the C library's; it is a parameter.  [d ** 2] is taken as
    the correctly rounded product [d * d]. *)
Definition binary64 (libm_exp : PrimFloat.float → PrimFloat.float) :
  Float64 PrimFloat.float :=
  {| f_of_int := of_int;
     f_add := PrimFloat.add; f_sub := PrimFloat.sub;
     f_mul := PrimFloat.mul; f_div := PrimFloat.div;
     f_sqr d := PrimFloat.mul d d;
     f_sqrt := PrimFloat.sqrt; f_exp := libm_exp;
     f_finite := finite;
     f_ltb := PrimFloat.ltb; f_eqb := PrimFloat.eqb |}.

(** The float of a decimal literal: [f_dec] of [binary64]. *)
Definition dec (m : Z) (k : nat) : PrimFloat.float :=
  PrimFloat.div (of_int m) (of_int (10 ^ Z.of_nat k)).

(** A division that is binary64's wherever the divisor is not zero. *)
Definition agree_off_zero (d : PrimFloat.float → PrimFloat.float → PrimFloat.float) :
  Prop :=
  ∀ a b, PrimFloat.eqb b (of_int 0) = false → d a b = PrimFloat.div a b.

End Binary64.

(** ** Shapes of a binary64 number, read on its specification *)

(** The magnitude [k] of a finite number [m * 2^e]: [2^(k-1) <= m * 2^e < 2^k]. *)
Definition sf_mag (x : SpecFloat.spec_float) : Z :=
  match x with
  | SpecFloat.S754_finite _ m e => (SpecFloat.Zdigits2 (Zpos m) + e)%Z
  | _ => 0%Z
  end.

Definition sf_zero (x : SpecFloat.spec_float) : bool :=
  match x with SpecFloat.S754_zero _ => true | _ => false end.

(** A zero or a finite number. *)
Definition sf_finite (x : SpecFloat.spec_float) : bool :=
  match x with
  | SpecFloat.S754_zero _ | SpecFloat.S754_finite _ _ _ => true
  | _ => false
  end.

(** A positive finite number. *)
Definition sf_posfin (x : SpecFloat.spec_float) : bool :=
  match x with SpecFloat.S754_finite false _ _ => true | _ => false end.

(** A number whose sign bit is clear: [+0], a positive number, [+inf]. *)
Definition sf_plus (x : SpecFloat.spec_float) : bool :=
  match x with
  | SpecFloat.S754_zero s | SpecFloat.S754_infinity s
  | SpecFloat.S754_finite s _ _ => negb s
  | SpecFloat.S754_nan => false
  end.

Definition sf_nan (x : SpecFloat.spec_float) : bool :=
  match x with SpecFloat.S754_nan => true | _ => false end.

(** A zero, or a finite number of magnitude at most [K]. *)
Definition sf_below (K : Z) (x : SpecFloat.spec_float) : Prop :=
  match x with
  | SpecFloat.S754_zero _ => True
  | SpecFloat.S754_finite _ m e => (SpecFloat.Zdigits2 (Zpos m) + e ≤ K)%Z
  | _ => False
  end.

(** A NaN, or a number whose sign bit is clear. *)
Definition sf_plus_or_nan (x : SpecFloat.spec_float) : bool :=
  sf_plus x || sf_nan x.

(** A number that is [>= 0]: a zero of either sign, a positive number,
    [+inf]. *)
Definition sf_nonneg (x : SpecFloat.spec_float) : bool :=
  sf_zero x || sf_plus x.

(** ** Python values, the store, and the monad of Python code *)

Definition loc := nat.

Inductive exn := UnboundLocalError | TypeError | IndexError | OverflowError.

(** The two classes of float the module computes with: Python's [float],
    whose [**] raises [OverflowError], and numpy's [float64], whose [**]
    returns [inf]. *)
Inductive float_class := PyFloat | NpFloat64.

(** Immutable objects: a [float] (or [np.float64], a subclass), an [int],
    [None], a [str].  An [AInt] is an int proper: [True] and [False] are
    instances of [int] as well, but numpy takes their square root in half
    precision; they are not modelled, and no value of this type stands for
    them. *)
Inductive atom (F : Type) :=
| AFloat (v : F)
| AInt (n : Z)
| ANone
| AStr (s : string).

(** Objects of the store: a one-dimensional float64 [ndarray], a [list] and
    a [tuple] of immutable objects. *)
Inductive obj (F : Type) :=
| NdArray (a : list F)
| PyList (l : list (atom F))
| PyTuple (l : list (atom F)).

Inductive value (F : Type) :=
| VAtom (a : atom F)
| VRef (l : loc).

Arguments AFloat {F} v.
Arguments AInt {F} n.
Arguments ANone {F}.
Arguments AStr {F} s.
Arguments NdArray {F} a.
Arguments PyList {F} l.
Arguments PyTuple {F} l.
Arguments VAtom {F} a.
Arguments VRef {F} l.

(** The state a call can see: the store, the module-level [probdata]
    (the parameters [u] and [beta] read from [setprob.data]), and what
    [np.empty] finds in the memory it hands out. *)
Record pystate (F : Type) := {
  heap : gmap loc (obj F);
  probdata : F * F;
  uninit : loc → nat → F
}.

Arguments heap {F} p.
Arguments probdata {F} p.
Arguments uninit {F} p.

Definition set_heap {F} (h : gmap loc (obj F)) (σ : pystate F) : pystate F :=
  {| heap := h; probdata := probdata σ; uninit := uninit σ |}.

Inductive outcome (A : Type) := Ok (a : A) | Raise (e : exn).

Arguments Ok {A} a.
Arguments Raise {A} e.

Definition py (F A : Type) : Type := pystate F → outcome A * pystate F.

Definition ret {F A} (a : A) : py F A := λ σ, (Ok a, σ).

Definition raise {F A} (e : exn) : py F A := λ σ, (Raise e, σ).

Definition bind {F A B} (c : py F A) (k : A → py F B) : py F B :=
  λ σ, match c σ with
       | (Ok a, σ') => k a σ'
       | (Raise e, σ') => (Raise e, σ')
       end.

Notation "'let!' x ':=' c 'in' k" := (bind c (λ x, k))
  (at level 10, x name, c at level 100, k at level 200).
Notation "c ';;' k" := (bind c (λ _, k))
  (at level 100, k at level 200, right associativity).

(** [for i in idx: body i] *)
Fixpoint for_each {F} (idx : list nat) (body : nat → py F unit) : py F unit :=
  match idx with
  | [] => ret tt
  | i :: rest => body i ;; for_each rest body
  end.

Definition range (m : nat) : list nat := seq 0 m.

Definition is_number {F} (a : atom F) : bool :=
  match a with AFloat _ | AInt _ => true | _ => false end.

(** The ints numpy converts to a 64-bit integer ([int64] or [uint64]). *)
Definition int64_range (n : Z) : bool :=
  (- 2 ^ 63 <=? n)%Z && (n <? 2 ^ 64)%Z.

(** The objects [np.sqrt] accepts: a float, an int in the 64-bit range. *)
Definition sqrt_ok {F} (a : atom F) : bool :=
  match a with
  | AFloat _ => true
  | AInt n => int64_range n
  | ANone | AStr _ => false
  end.

(** The items of a sequence; an ndarray yields [np.float64] scalars. *)
Definition items {F} (o : obj F) : list (atom F) :=
  match o with
  | NdArray a => AFloat <$> a
  | PyList l | PyTuple l => l
  end.

Section Module_setplot.

Context {F : Type} {A : Float64 F}.

(** [isinstance(x, (np.ndarray, list))] *)
Definition isinstance_ndarray_list (x : value F) : py F bool :=
  λ σ, match x with
       | VRef l =>
           match heap σ !! l with
           | Some (NdArray _) | Some (PyList _) => (Ok true, σ)
           | _ => (Ok false, σ)
           end
       | VAtom _ => (Ok false, σ)
       end.

(** [isinstance(x, (float, int))] (on the objects of the model; a
    [np.int64] scalar, which is no instance of [int], and a [bool], which
    is one, are outside it) *)
Definition isinstance_float_int (x : value F) : bool :=
  match x with
  | VAtom a => is_number a
  | VRef _ => false
  end.

(** [np.size(x)], for a one-dimensional array or a flat list *)
Definition np_size (x : value F) : py F nat :=
  λ σ, match x with
       | VRef l =>
           match heap σ !! l with
           | Some o => (Ok (length (items o)), σ)
           | None => (Ok 1, σ)
           end
       | VAtom _ => (Ok 1, σ)
       end.

(** [np.empty((m))]: a new array, its contents whatever the memory held *)
Definition np_empty (m : nat) : py F loc :=
  λ σ, let l := fresh (dom (heap σ)) in
       (Ok l, set_heap (<[l := NdArray (uninit σ l <$> seq 0 m)]> (heap σ)) σ).

(** [x[i]] *)
Definition getitem (x : value F) (i : nat) : py F (atom F) :=
  λ σ, match x with
       | VRef l =>
           match heap σ !! l with
           | Some o =>
               match items o !! i with
               | Some a => (Ok a, σ)
               | None => (Raise IndexError, σ)
               end
           | None => (Raise TypeError, σ)
           end
       | VAtom _ => (Raise TypeError, σ)
       end.

(** [q[i] = v], for an ndarray [q] *)
Definition setitem (q : loc) (i : nat) (v : F) : py F unit :=
  λ σ, match heap σ !! q with
       | Some (NdArray a) =>
           if decide (i < length a)
           then (Ok tt, set_heap (<[q := NdArray (<[i := v]> a)]> (heap σ)) σ)
           else (Raise IndexError, σ)
       | _ => (Raise TypeError, σ)
       end.

(** [np.sqrt(a)]: an int in the 64-bit range is converted first; a larger
    int, [None] and strings have no square root *)
Definition np_sqrt (a : atom F) : py F F :=
  match a with
  | AFloat v => ret (f_sqrt v)
  | AInt n =>
      if int64_range n then ret (f_sqrt (f_of_int n)) else raise TypeError
  | ANone | AStr _ => raise TypeError
  end.

(** [a != 0] (and [a != 0.]) *)
Definition ne_zero (a : atom F) : bool :=
  match a with
  | AFloat v => negb (f_eqb v (f_of_int 0))
  | AInt n => negb (n =? 0)%Z
  | ANone | AStr _ => true
  end.

(** [where(c, a, b)] on a scalar condition *)
Definition np_where (c : bool) (a b : Z) : Z := if c then a else b.

(** [d ** 2]: for a Python float the power raises [OverflowError] when a
    finite [d] has a square out of range; numpy returns [inf]. *)
Definition pow2 (c : float_class) (d : F) : py F F :=
  match c with
  | NpFloat64 => ret (f_sqr d)
  | PyFloat =>
      if f_finite d && negb (f_finite (f_sqr d)) then raise OverflowError
      else ret (f_sqr d)
  end.

(** [where(logical_and(x > 0.1, x < 0.4), 1, 0)] *)
Definition indicator (x : F) : Z :=
  np_where (f_ltb (f_dec 1 1) x && f_ltb x (f_dec 4 1)) 1 0.

(** [qinit], lines 17-27, on a float of class [c].  The first value of [q],
    the Gaussian plus the indicator, is computed and then overwritten by
    the indicator alone. *)
Definition qinit (c : float_class) (x : F) : py F Z :=
  let beta := 100%Z in
  let gamma := 0%Z in
  let x0 := f_dec 75 2 in
  let! sq := pow2 c (f_sub x x0) in
  let q := f_add (f_exp (f_mul (f_of_int (- beta)) sq)) (f_of_int (indicator x)) in
  let q := indicator x in
  ret q.

(** The body of the loop of [qtrue], lines 42-46; [xm] is a numpy
    [float64]. *)
Definition qtrue_body (x : value F) (t : F) (q : loc) (i : nat) : py F unit :=
  let! xi := getitem x i in
  let! s := np_sqrt xi in
  let xm := f_sqr (f_sub s t) in
  let! xi := getitem x i in
  if ne_zero xi then
    let! k := qinit NpFloat64 xm in
    let! xi := getitem x i in
    let! s := np_sqrt xi in
    setitem q i (f_mul (f_div (f_of_int k) s) (f_sqrt xm))
  else
    setitem q i (f_of_int 0).

(** [qtrue], lines 29-53.  The local [q] is unbound ([None] here) until
    one of the two branches assigns it. *)
Definition qtrue (x : value F) (t : F) : py F (value F) :=
  let beta := 100%Z in
  let gamma := 0%Z in
  let x0 := f_dec 75 2 in
  let! is_seq := isinstance_ndarray_list x in
  let! q :=
    (if is_seq : bool then
       let! m := np_size x in
       let! q := np_empty m in
       for_each (range m) (qtrue_body x t q) ;;
       ret (Some (VRef q))
     else ret None) in
  let! q :=
    (if isinstance_float_int x then
       match x with
       | VAtom a =>
           if ne_zero a then
             let! s := np_sqrt a in
             let xm := f_sqr (f_sub s t) in
             let! k := qinit NpFloat64 xm in
             let! s := np_sqrt a in
             ret (Some (VAtom (AFloat
                    (f_mul (f_div (f_of_int k) s) (f_sqrt xm)))))
           else ret (Some (VAtom (AInt 0)))
       | VRef _ => ret q
       end
     else ret q) in
  match q with
  | Some v => ret v
  | None => raise UnboundLocalError
  end.

End Module_setplot.

(** ** Views used in the statements *)

Section Views.

Context {F : Type} {A : Float64 F}.

(** An object of class [ndarray] or [list]. *)
Definition seq_obj (o : obj F) : bool :=
  match o with NdArray _ | PyList _ => true | PyTuple _ => false end.

(** A number as a float: what [np.sqrt] and the comparison see. *)
Definition to_float (a : atom F) : F :=
  match a with
  | AFloat v => v
  | AInt n => f_of_int n
  | ANone | AStr _ => f_of_int 0
  end.

(** The expression of lines 44 and 50 at a coordinate [v]. *)
Definition profile_value (v t : F) : F :=
  let s := f_sqrt v in
  let xm := f_sqr (f_sub s t) in
  f_mul (f_div (f_of_int (indicator xm)) s) (f_sqrt xm).

(** What one pass of the loop stores for the item [a]. *)
Definition cell (t : F) (a : atom F) : F :=
  if ne_zero a then profile_value (to_float a) t else f_of_int 0.

(** The array after the passes [idx] of the loop, started on [qs]. *)
Definition stores (t : F) (its : list (atom F)) (qs : list F) (idx : list nat) :
  list F :=
  foldl (λ acc i, match its !! i with
                  | Some a => <[i := cell t a]> acc
                  | None => acc
                  end) qs idx.

(** The value the specification gives away from zero, in its words:
    [InitialProfile((sqrt(x)-t)^2) / sqrt(x) * |sqrt(x) - t|], for an
    absolute value [abs]. *)
Definition spec_value (abs : F → F) (x t : F) : F :=
  f_mul (f_div (f_of_int (indicator (f_sqr (f_sub (f_sqrt x) t)))) (f_sqrt x))
        (abs (f_sub (f_sqrt x) t)).

(** What an argument or a result denotes in a state: an immutable object
    itself, a reference the object it points to. *)
Definition content (σ : pystate F) (x : value F) : atom F + option (obj F) :=
  match x with
  | VAtom a => inl a
  | VRef l => inr (heap σ !! l)
  end.

Definition result_content (r : outcome (value F) * pystate F) :
  outcome (atom F + option (obj F)) :=
  match r with
  | (Ok v, σ) => Ok (content σ v)
  | (Raise e, _) => Raise e
  end.

(** [σ'] differs from [σ] at most by objects that did not exist in [σ]. *)
Definition same_frame (σ σ' : pystate F) : Prop :=
  probdata σ' = probdata σ ∧ uninit σ' = uninit σ ∧
  ∀ l, l ∈ dom (heap σ) → heap σ' !! l = heap σ !! l.


(** A state with the objects [h] and nothing else of interest. *)
Definition state_of (h : gmap loc (obj F)) : pystate F :=
  {| heap := h; probdata := (f_of_int 1, f_of_int 100);
     uninit := λ _ _, f_of_int 7 |}.

End Views.







(** The square [(sqrt(x) - t) ** 2] of lines 42 and 49, in binary64. *)
Definition b64_square (x t : PrimFloat.float) : PrimFloat.float :=
  PrimFloat.mul (PrimFloat.sub (PrimFloat.sqrt x) t)
                (PrimFloat.sub (PrimFloat.sqrt x) t).

(** The square overflows: the difference [sqrt(x) - t] is finite and its
    square is not. *)
Definition b64_overflow (x t : PrimFloat.float) : bool :=
  Binary64.finite (PrimFloat.sub (PrimFloat.sqrt x) t)
  && negb (Binary64.finite (b64_square x t)).

(** A float below [2^k] in absolute value; a coordinate that is: a float
    below [2^k], or an int of the range of [np.sqrt]. *)
Definition b64_below (k : Z) (v : PrimFloat.float) : bool :=
  PrimFloat.ltb (PrimFloat.abs v) (Binary64.of_int (2 ^ k)).



(** The list [[0.0, 0.25, 3]] at address 0, and the tuple [(0.0, 0.25)] at
    address 1. *)
Definition sample_heap : gmap loc (obj Exact.xreal) :=
  {[ 0 := PyList [AFloat (Exact.Fin 0); AFloat (Exact.Fin (1 / 4)); AInt 3];
     1 := PyTuple [AFloat (Exact.Fin 0); AFloat (Exact.Fin (1 / 4))] ]}.

(** The same for binary64 objects. *)
Definition state64 (h : gmap loc (obj PrimFloat.float)) : pystate PrimFloat.float :=
  state_of (A := Binary64.binary64 (λ x, x)) h.


(** ** The code, step by step *)

Section Generic.
Context {F : Type} {A : Float64 F}.
Implicit Types (σ : pystate F) (t v : F) (a : atom F) (l q : loc).

Lemma set_heap_set_heap (h h' : gmap loc (obj F)) σ :
  set_heap h (set_heap h' σ) = set_heap h σ.
Proof. reflexivity. Qed.

Lemma set_heap_id σ : set_heap (heap σ) σ = σ.
Proof. by destruct σ. Qed.

Lemma indicator_eq v :
  indicator v = if f_ltb (f_dec 1 1) v && f_ltb v (f_dec 4 1) then 1%Z else 0%Z.
Proof. reflexivity. Qed.

Lemma qinit_np v σ : qinit NpFloat64 v σ = (Ok (indicator v), σ).
Proof. reflexivity. Qed.

Lemma qinit_py v σ :
  qinit PyFloat v σ
  = if f_finite (f_sub v (f_dec 75 2))
       && negb (f_finite (f_sqr (f_sub v (f_dec 75 2))))
    then (Raise OverflowError, σ)
    else (Ok (indicator v), σ).
Proof.
  unfold qinit, bind, pow2. by destruct (f_finite _ && negb _).
Qed.

Lemma sqrt_ok_number a : sqrt_ok a = true → is_number a = true.
Proof. by destruct a. Qed.

Lemma np_sqrt_number a σ :
  sqrt_ok a = true → np_sqrt a σ = (Ok (f_sqrt (to_float a)), σ).
Proof. destruct a; simpl; try done. by intros ->. Qed.

Lemma np_sqrt_other a σ :
  sqrt_ok a = false → np_sqrt a σ = (Raise TypeError, σ).
Proof. destruct a; simpl; try done. by intros ->. Qed.

(** *** Scalar argument *)

Lemma qtrue_atom_nonzero a t σ :
  sqrt_ok a = true → ne_zero a = true →
  qtrue (VAtom a) t σ = (Ok (VAtom (AFloat (profile_value (to_float a) t))), σ).
Proof.
  intros Hs Hz. pose proof (sqrt_ok_number a Hs) as Hn.
  unfold qtrue, bind; simpl. rewrite Hn, Hz.
  unfold bind. rewrite !np_sqrt_number by done. simpl.
  unfold bind. rewrite ?np_sqrt_number by done. reflexivity.
Qed.

Lemma qtrue_atom_big a t σ :
  is_number a = true → ne_zero a = true → sqrt_ok a = false →
  qtrue (VAtom a) t σ = (Raise TypeError, σ).
Proof.
  intros Hn Hz Hs. unfold qtrue, bind; simpl. rewrite Hn, Hz.
  unfold bind. by rewrite np_sqrt_other.
Qed.

Lemma qtrue_atom_cell a t σ :
  sqrt_ok a = true →
  qtrue (VAtom a) t σ
  = (Ok (VAtom (if ne_zero a then AFloat (cell t a) else AInt 0)), σ).
Proof.
  intros Hs. pose proof (sqrt_ok_number a Hs) as Hn.
  unfold cell. destruct (ne_zero a) eqn:Hz.
  - by rewrite qtrue_atom_nonzero.
  - unfold qtrue, bind; simpl. by rewrite Hn, Hz.
Qed.

Lemma qtrue_atom_zero a t σ :
  is_number a = true → ne_zero a = false →
  qtrue (VAtom a) t σ = (Ok (VAtom (AInt 0)), σ).
Proof.
  intros Hn Hz. unfold qtrue, bind; simpl. by rewrite Hn, Hz.
Qed.

Lemma qtrue_atom_other a t σ :
  is_number a = false →
  qtrue (VAtom a) t σ = (Raise UnboundLocalError, σ).
Proof.
  intros Hn. unfold qtrue, bind; simpl. by rewrite Hn.
Qed.

Lemma qtrue_ref_other l t σ :
  match heap σ !! l with Some (NdArray _) | Some (PyList _) => False | _ => True end →
  qtrue (VRef l) t σ = (Raise UnboundLocalError, σ).
Proof.
  intros Hl. unfold qtrue, bind; simpl.
  destruct (heap σ !! l) as [[]|]; done.
Qed.


Lemma length_stores t its idx : ∀ qs, length (stores t its qs idx) = length qs.
Proof.
  induction idx as [|i idx IH]; intros qs; simpl; [done|].
  unfold stores in *; simpl. rewrite IH.
  destruct (its !! i); [apply length_insert | done].
Qed.

Lemma lookup_stores_notin t its idx j :
  ∀ qs, j ∉ idx → stores t its qs idx !! j = qs !! j.
Proof.
  induction idx as [|i idx IH]; intros qs Hj; [done|].
  apply not_elem_of_cons in Hj as [Hji Hj].
  unfold stores in *; simpl. rewrite IH by done.
  destruct (its !! i); [by apply list_lookup_insert_ne | done].
Qed.

Lemma lookup_stores_in t its idx j a :
  ∀ qs, j ∈ idx → its !! j = Some a → j < length qs →
        stores t its qs idx !! j = Some (cell t a).
Proof.
  induction idx as [|i idx IH]; intros qs Hj Ha Hlen; [by apply elem_of_nil in Hj|].
  destruct (decide (j ∈ idx)) as [Hin|Hnin].
  - unfold stores in *; simpl. apply IH; [done..|].
    destruct (its !! i); [by rewrite length_insert | done].
  - apply elem_of_cons in Hj as [->|]; [|done].
    change (stores t its qs (i :: idx)) with
      (stores t its (match its !! i with Some a => <[i := cell t a]> qs | None => qs end) idx).
    rewrite lookup_stores_notin by done. rewrite Ha.
    by apply list_lookup_insert_eq.
Qed.

Lemma stores_range t its qs :
  length qs = length its → stores t its qs (range (length its)) = cell t <$> its.
Proof.
  intros Hlen. apply list_eq; intros j.
  rewrite list_lookup_fmap.
  destruct (its !! j) as [a|] eqn:Ha; simpl.
  - apply lookup_lt_Some in Ha as Hj.
    apply lookup_stores_in; [|done|lia].
    unfold range. apply elem_of_seq. lia.
  - apply lookup_ge_None in Ha.
    apply lookup_ge_None. rewrite length_stores. lia.
Qed.

Lemma qtrue_body_number l o t q i σ a qs :
  heap σ !! l = Some o → items o !! i = Some a → sqrt_ok a = true →
  heap σ !! q = Some (NdArray qs) → i < length qs →
  qtrue_body (VRef l) t q i σ
  = (Ok tt, set_heap (<[q := NdArray (<[i := cell t a]> qs)]> (heap σ)) σ).
Proof.
  intros Hl Hi Hn Hq Hlen. unfold qtrue_body, bind, getitem.
  rewrite Hl, Hi. rewrite np_sqrt_number by done. rewrite Hl, Hi.
  unfold cell. destruct (ne_zero a).
  - rewrite qinit_np. rewrite Hl, Hi. rewrite np_sqrt_number by done.
    unfold setitem. rewrite Hq. by rewrite decide_True.
  - unfold setitem. rewrite Hq. by rewrite decide_True.
Qed.

Lemma qtrue_body_other l o t q i σ a :
  heap σ !! l = Some o → items o !! i = Some a → sqrt_ok a = false →
  qtrue_body (VRef l) t q i σ = (Raise TypeError, σ).
Proof.
  intros Hl Hi Hn. unfold qtrue_body, bind, getitem.
  rewrite Hl, Hi. by rewrite np_sqrt_other.
Qed.

Lemma for_each_app (idx1 idx2 : list nat) (body : nat → py F unit) σ :
  for_each (idx1 ++ idx2) body σ
  = (for_each idx1 body ;; for_each idx2 body) σ.
Proof.
  revert σ. induction idx1 as [|i idx1 IH]; intros σ; simpl.
  - unfold bind, ret. reflexivity.
  - unfold bind in *. destruct (body i σ) as [[[]|e] σ']; [|done]. apply IH.
Qed.

Lemma for_each_numbers l o t q idx :
  ∀ σ qs,
    heap σ !! l = Some o → heap σ !! q = Some (NdArray qs) → l ≠ q →
    Forall (λ i, ∃ a, items o !! i = Some a ∧ sqrt_ok a = true ∧ i < length qs) idx →
    for_each idx (qtrue_body (VRef l) t q) σ
    = (Ok tt, set_heap (<[q := NdArray (stores t (items o) qs idx)]> (heap σ)) σ).
Proof.
  induction idx as [|i idx IH]; intros σ qs Hl Hq Hne Hall; simpl.
  - unfold ret, stores; simpl. by rewrite insert_id, set_heap_id.
  - apply Forall_cons in Hall as [(a & Ha & Hn & Hi) Hall].
    unfold bind. erewrite qtrue_body_number by done.
    erewrite IH; simpl.
    + rewrite insert_insert_eq. unfold stores; simpl. by rewrite Ha.
    + by rewrite lookup_insert_ne.
    + by rewrite lookup_insert_eq.
    + done.
    + eapply Forall_impl; [exact Hall|]. simpl.
      intros j (b & ? & ? & ?). exists b. by rewrite length_insert.
Qed.


Lemma fresh_loc_None σ : heap σ !! fresh (dom (heap σ)) = None.
Proof. apply not_elem_of_dom, is_fresh. Qed.

Lemma bind_ok {B C} (c : py F B) (k : B → py F C) σ b σ' :
  c σ = (Ok b, σ') → bind c k σ = k b σ'.
Proof. intros H. unfold bind. by rewrite H. Qed.

Lemma bind_raise {B C} (c : py F B) (k : B → py F C) σ e σ' :
  c σ = (Raise e, σ') → bind c k σ = (Raise e, σ').
Proof. intros H. unfold bind. by rewrite H. Qed.

Lemma isinstance_ref l o σ :
  heap σ !! l = Some o →
  isinstance_ndarray_list (VRef l) σ = (Ok (seq_obj o), σ).
Proof. intros H. unfold isinstance_ndarray_list. rewrite H. by destruct o. Qed.

Lemma np_size_ref l o σ :
  heap σ !! l = Some o → np_size (VRef l) σ = (Ok (length (items o)), σ).
Proof. intros H. unfold np_size. by rewrite H. Qed.

Lemma range_numbers (its : list (atom F)) (n len : nat) :
  n ≤ length its → length its ≤ len →
  (∀ j b, j < n → its !! j = Some b → sqrt_ok b = true) →
  Forall (λ i, ∃ a, its !! i = Some a ∧ sqrt_ok a = true ∧ i < len) (seq 0 n).
Proof.
  intros Hn Hlen Hall. apply Forall_forall. intros i Hi. apply elem_of_seq in Hi.
  destruct (lookup_lt_is_Some_2 its i) as [a Ha]; [lia|].
  exists a. split; [done|]. split; [|lia]. eapply Hall; [|done]. lia.
Qed.

Lemma qtrue_ref_numbers l o t σ :
  heap σ !! l = Some o → seq_obj o = true →
  Forall (λ a, sqrt_ok a = true) (items o) →
  qtrue (VRef l) t σ
  = (Ok (VRef (fresh (dom (heap σ)))),
     set_heap (<[fresh (dom (heap σ)) := NdArray (cell t <$> items o)]> (heap σ)) σ).
Proof.
  intros Hl Hseq Hall.
  pose proof (fresh_loc_None σ) as Hfresh.
  set (q := fresh (dom (heap σ))) in *.
  assert (l ≠ q) as Hne by (intros ->; congruence).
  unfold qtrue; simpl.
  erewrite bind_ok by (by apply isinstance_ref). rewrite Hseq.
  erewrite bind_ok.
  2:{ erewrite bind_ok by (by apply np_size_ref).
      erewrite bind_ok by reflexivity. fold q.
      erewrite bind_ok; [reflexivity|].
      eapply (for_each_numbers l o t q); simpl.
      - by rewrite lookup_insert_ne.
      - by rewrite lookup_insert_eq.
      - done.
      - apply range_numbers; [done| |].
        + by rewrite length_fmap, length_seq.
        + intros j b _ Hb. rewrite Forall_forall in Hall. apply Hall.
          by eapply list_elem_of_lookup_2. }
  simpl. rewrite insert_insert_eq.
  rewrite stores_range; [done|]. by rewrite length_fmap, length_seq.
Qed.

Lemma qtrue_ref_not_number l o t σ i a :
  heap σ !! l = Some o → seq_obj o = true →
  items o !! i = Some a → sqrt_ok a = false →
  (∀ j b, j < i → items o !! j = Some b → sqrt_ok b = true) →
  ∃ qs, qtrue (VRef l) t σ
        = (Raise TypeError,
           set_heap (<[fresh (dom (heap σ)) := NdArray qs]> (heap σ)) σ).
Proof.
  intros Hl Hseq Hi Hn Hbefore.
  pose proof (fresh_loc_None σ) as Hfresh.
  set (q := fresh (dom (heap σ))) in *.
  assert (l ≠ q) as Hne by (intros ->; congruence).
  apply lookup_lt_Some in Hi as Hlt.
  set (m := length (items o)) in *.
  set (junk := uninit σ q <$> seq 0 m).
  exists (stores t (items o) junk (seq 0 i)).
  unfold qtrue; simpl.
  erewrite bind_ok by (by apply isinstance_ref). rewrite Hseq.
  erewrite bind_raise; [reflexivity|].
  erewrite bind_ok by (by apply np_size_ref).
  erewrite bind_ok by reflexivity. fold q m junk.
  erewrite bind_raise; [reflexivity|].
  unfold range. replace m with (i + S (m - S i)) at 1 by lia.
  rewrite seq_app. simpl. rewrite for_each_app.
  erewrite bind_ok.
  2:{ eapply (for_each_numbers l o t q); simpl.
      - by rewrite lookup_insert_ne.
      - by rewrite lookup_insert_eq.
      - done.
      - apply range_numbers; [fold m; lia| |done].
        unfold junk. rewrite length_fmap, length_seq. done. }
  simpl. rewrite insert_insert_eq.
  erewrite bind_raise; [reflexivity|].
  eapply qtrue_body_other; [|done..]. simpl. by rewrite lookup_insert_ne.
Qed.
End Generic.

(** ** Effects of a call *)

Section Purity.
Context {F : Type} {A : Float64 F}.
Implicit Types (σ : pystate F) (t v : F) (a : atom F) (l q : loc).

Lemma numbers_or_first (its : list (atom F)) :
  Forall (λ a, sqrt_ok a = true) its ∨
  ∃ i a, its !! i = Some a ∧ sqrt_ok a = false ∧
         ∀ j b, j < i → its !! j = Some b → sqrt_ok b = true.
Proof.
  induction its as [|a its IH]; [by left|].
  destruct (sqrt_ok a) eqn:Ha.
  - destruct IH as [IH|(i & b & Hi & Hb & Hlt)].
    + left. by constructor.
    + right. exists (S i), b. split; [done|]. split; [done|].
      intros [|j] c Hj Hc; simpl in Hc; [congruence|].
      eapply Hlt; [|done]. lia.
  - right. exists 0, a. split; [done|]. split; [done|]. intros; lia.
Qed.

Lemma same_frame_refl σ : same_frame σ σ.
Proof. by repeat split. Qed.

Lemma same_frame_alloc σ (o : obj F) :
  same_frame σ (set_heap (<[fresh (dom (heap σ)) := o]> (heap σ)) σ).
Proof.
  repeat split; simpl. intros l Hl. apply lookup_insert_ne.
  intros <-. by apply is_fresh in Hl.
Qed.

(** Every run of [qtrue] falls in one of four cases. *)
Lemma qtrue_cases x t σ :
  (∃ a, qtrue x t σ = (Ok (VAtom a), σ))
  ∨ (∃ e, qtrue x t σ = (Raise e, σ))
  ∨ (∃ l o, x = VRef l ∧ heap σ !! l = Some o ∧
       qtrue x t σ
       = (Ok (VRef (fresh (dom (heap σ)))),
          set_heap (<[fresh (dom (heap σ)) := NdArray (cell t <$> items o)]> (heap σ)) σ))
  ∨ (∃ qs, qtrue x t σ
           = (Raise TypeError,
              set_heap (<[fresh (dom (heap σ)) := NdArray qs]> (heap σ)) σ)).
Proof.
  destruct x as [a|l].
  - destruct (is_number a) eqn:Hn.
    + destruct (ne_zero a) eqn:Hz.
      * destruct (sqrt_ok a) eqn:Hs.
        -- left. eexists. by apply qtrue_atom_nonzero.
        -- right; left. eexists. by apply qtrue_atom_big.
      * left. eexists. by apply qtrue_atom_zero.
    + right; left. eexists. by apply qtrue_atom_other.
  - destruct (heap σ !! l) as [o|] eqn:Hl.
    + destruct (seq_obj o) eqn:Hseq.
      * destruct (numbers_or_first (items o)) as [Hall|(i & a & Hi & Ha & Hlt)].
        -- right; right; left. exists l, o. split; [done|]. split; [done|].
           by apply qtrue_ref_numbers.
        -- right; right; right. by eapply qtrue_ref_not_number.
      * right; left. eexists. apply qtrue_ref_other. rewrite Hl. by destruct o.
    + right; left. eexists. apply qtrue_ref_other. by rewrite Hl.
Qed.

Lemma qtrue_same_frame x t σ : same_frame σ (qtrue x t σ).2.
Proof.
  destruct (qtrue_cases x t σ) as [[a ->]|[[e ->]|[(l & o & _ & _ & ->)|[qs ->]]]]; simpl;
    auto using same_frame_refl, same_frame_alloc.
Qed.

Lemma qtrue_content x t σ1 σ2 :
  content σ1 x = content σ2 x →
  result_content (qtrue x t σ1) = result_content (qtrue x t σ2).
Proof.
  intros Hc. destruct x as [a|l]; simpl in Hc.
  - destruct (is_number a) eqn:Hn.
    + destruct (ne_zero a) eqn:Hz.
      * destruct (sqrt_ok a) eqn:Hs.
        -- by rewrite !qtrue_atom_nonzero.
        -- by rewrite !qtrue_atom_big.
      * by rewrite !qtrue_atom_zero.
    + by rewrite !qtrue_atom_other.
  - injection Hc as Hc.
    destruct (heap σ1 !! l) as [o|] eqn:Hl; symmetry in Hc.
    + destruct (seq_obj o) eqn:Hseq.
      * destruct (numbers_or_first (items o)) as [Hall|(i & a & Hi & Ha & Hlt)].
        -- rewrite !(qtrue_ref_numbers l o) by done. simpl.
           by rewrite !lookup_insert_eq.
        -- destruct (qtrue_ref_not_number l o t σ1 i a) as [qs1 ->]; [done..|].
           destruct (qtrue_ref_not_number l o t σ2 i a) as [qs2 ->]; done.
      * rewrite !qtrue_ref_other; [done|rewrite Hc|rewrite Hl]; by destruct o.
    + rewrite !qtrue_ref_other; [done|by rewrite Hc|by rewrite Hl].
Qed.

End Purity.

(** ** Exact arithmetic *)

Import Exact.

Section ExactFacts.
Local Open Scope R_scope.

Lemma Rltb_true a b : a < b → Rltb a b = true.
Proof. intros. unfold Rltb. by destruct (Rlt_dec a b). Qed.
Lemma Rltb_false a b : ¬ a < b → Rltb a b = false.
Proof. intros. unfold Rltb. by destruct (Rlt_dec a b). Qed.
Lemma Reqb_true a b : a = b → Reqb a b = true.
Proof. intros. unfold Reqb. by destruct (Req_dec_T a b). Qed.
Lemma Reqb_false a b : a ≠ b → Reqb a b = false.
Proof. intros. unfold Reqb. by destruct (Req_dec_T a b). Qed.


Lemma xsqrt_sqr (d : xreal) : f_sqrt (f_sqr d) = xabs d.
Proof.
  destruct d as [r| | |]; simpl; try done.
  rewrite Rltb_false by nra. f_equal. apply sqrt_Rsqr_abs.
Qed.

Lemma pow10_nonzero (k : nat) : IZR (10 ^ Z.of_nat k) ≠ 0.
Proof.
  apply not_0_IZR. apply Z.pow_nonzero; lia.
Qed.

Lemma f_dec_exact (m : Z) (k : nat) :
  f_dec m k = Fin (IZR m / IZR (10 ^ Z.of_nat k)).
Proof.
  unfold f_dec; simpl. by rewrite Reqb_false by apply pow10_nonzero.
Qed.

Lemma qinit_exact (r : R) :
  indicator (Fin r) = if Rltb (1/10) r && Rltb r (4/10) then 1%Z else 0%Z.
Proof.
  rewrite indicator_eq, !f_dec_exact. simpl.
  replace (IZR (Z.pow_pos 10 1)) with 10 by (simpl; lra).
  reflexivity.
Qed.
End ExactFacts.

Section ExactProfile.
Local Open Scope R_scope.
Implicit Types (x t r : R).

Lemma qinit_range {F} {A : Float64 F} (v : F) :
  indicator v = 0%Z ∨ indicator v = 1%Z.
Proof. rewrite indicator_eq. destruct (_ && _); auto. Qed.

Lemma profile_value_spec (x t : xreal) :
  profile_value x t = spec_value xabs x t.
Proof. unfold profile_value, spec_value. by rewrite xsqrt_sqr. Qed.

Lemma xsqrt_pos x : 0 < x → f_sqrt (Fin x) = Fin (sqrt x).
Proof. intros. simpl. by rewrite Rltb_false by lra. Qed.

Lemma profile_value_pos x t :
  0 < x →
  profile_value (Fin x) (Fin t)
  = Fin (IZR (indicator (Fin ((sqrt x - t) * (sqrt x - t)))) / sqrt x * Rabs (sqrt x - t)).
Proof.
  intros Hx. rewrite profile_value_spec. unfold spec_value.
  rewrite xsqrt_pos by done. simpl.
  pose proof (sqrt_lt_R0 x Hx).
  by rewrite Reqb_false by lra.
Qed.


Lemma profile_value_reflect x t :
  0 < x →
  profile_value (Fin x) (f_sub (f_mul (f_of_int 2) (f_sqrt (Fin x))) (Fin t))
  = profile_value (Fin x) (Fin t).
Proof.
  intros Hx. unfold profile_value. rewrite xsqrt_pos by done. simpl.
  replace ((sqrt x + - (2 * sqrt x + - t)) * (sqrt x + - (2 * sqrt x + - t)))
    with ((sqrt x + - t) * (sqrt x + - t)) by ring.
  reflexivity.
Qed.





End ExactProfile.

(** ** Binary64 evaluations *)

Section Binary64Facts.
Import Binary64.
Variable e : PrimFloat.float → PrimFloat.float.

(** At [x = 1.0], [t = 2^700] the square [(sqrt(x) - t) ** 2] overflows to
    [inf]; [qinit(inf)] is [0], and [0 / 1 * sqrt(inf)] is [0 * inf]. *)
Lemma qtrue_overflow σ :
  qtrue (A := binary64 e) (VAtom (AFloat (of_int 1))) (of_int (2 ^ 700)) σ
  = (Ok (VAtom (AFloat PrimFloat.nan)), σ).
Proof. by rewrite qtrue_atom_nonzero. Qed.

Lemma ok_float_inj (a b : PrimFloat.float) (σ σ' : pystate PrimFloat.float) :
  (Ok (VAtom (AFloat a)), σ) = (Ok (VAtom (AFloat b)), σ') → a = b.
Proof. intros H. by injection H. Qed.

Lemma spec_value_overflow :
  spec_value (A := binary64 e) PrimFloat.abs (of_int 1) (of_int (2 ^ 700))
  = of_int 0.
Proof. reflexivity. Qed.

End Binary64Facts.

(** ** Binary64 through its specification *)

Section RoundSpec.
Import SpecFloat.
Local Open Scope Z_scope.

Local Abbreviation prec := FloatOps.prec.
Local Abbreviation emax := FloatOps.emax.
Local Abbreviation fexp := (SpecFloat.fexp FloatOps.prec FloatOps.emax).
Local Abbreviation bra := (binary_round_aux FloatOps.prec FloatOps.emax).

Lemma fexp_eq k : fexp k = Z.max (k - 53) (-1074).
Proof. reflexivity. Qed.

(** *** Number of binary digits *)

Lemma digits2_size p : digits2_pos p = Pos.size p.
Proof. induction p; simpl; by rewrite ?IHp. Qed.

Lemma Zdigits2_log2 m : 0 < m → Zdigits2 m = Z.log2 m + 1.
Proof.
  destruct m as [|p|p]; try lia. intros _. simpl. rewrite digits2_size.
  destruct p; simpl; lia.
Qed.

Lemma Zdigits2_pos m : 0 < m → 0 < Zdigits2 m.
Proof. intros H. rewrite Zdigits2_log2 by done. pose proof (Z.log2_nonneg m). lia. Qed.

Lemma Zdigits2_le_iff m d : 0 < m → Zdigits2 m ≤ d ↔ m < 2 ^ d.
Proof.
  intros H. rewrite Zdigits2_log2 by done.
  rewrite (Z.log2_lt_pow2 m d H). lia.
Qed.

Lemma Zdigits2_ge_iff m d : 0 < m → d ≤ Zdigits2 m ↔ 2 ^ (d - 1) ≤ m.
Proof.
  intros H. rewrite Zdigits2_log2 by done.
  rewrite (Z.log2_le_pow2 m (d - 1) H). lia.
Qed.

Lemma Zdigits2_bounds m :
  0 < m → 2 ^ (Zdigits2 m - 1) ≤ m < 2 ^ Zdigits2 m.
Proof.
  intros H. split.
  - by apply Zdigits2_ge_iff.
  - by apply Zdigits2_le_iff.
Qed.

Lemma Zdigits2_succ m : 0 < m → Zdigits2 m ≤ Zdigits2 (m + 1) ≤ Zdigits2 m + 1.
Proof.
  intros H. pose proof (Zdigits2_bounds m H) as [Hl Hu]. split.
  - apply Zdigits2_ge_iff; lia.
  - apply Zdigits2_le_iff; [lia|].
    pose proof (Zdigits2_pos m H).
    rewrite Z.pow_add_r by lia. lia.
Qed.

(** Dropping [n] low digits. *)
Lemma digits_shr m n :
  0 < m → 0 ≤ n → n < Zdigits2 m →
  0 < m / 2 ^ n ∧ Zdigits2 (m / 2 ^ n) = Zdigits2 m - n.
Proof.
  intros Hm Hn Hlt. pose proof (Zdigits2_bounds m Hm) as [Hl Hu].
  assert (0 < 2 ^ n) as Hp by (apply Z.pow_pos_nonneg; lia).
  assert (2 ^ (Zdigits2 m - 1 - n) ≤ m / 2 ^ n) as Hlow.
  { apply Z.div_le_lower_bound; [done|].
    rewrite <- Z.pow_add_r by lia.
    by replace (n + (Zdigits2 m - 1 - n)) with (Zdigits2 m - 1) by lia. }
  assert (0 < 2 ^ (Zdigits2 m - 1 - n)) by (apply Z.pow_pos_nonneg; lia).
  assert (0 < m / 2 ^ n) as Hq by lia.
  split; [done|].
  apply Z.le_antisymm.
  - apply Zdigits2_le_iff; [done|].
    apply Z.div_lt_upper_bound; [done|].
    rewrite <- Z.pow_add_r by lia.
    by replace (n + (Zdigits2 m - n)) with (Zdigits2 m) by lia.
  - apply Zdigits2_ge_iff; [done|].
    by replace (Zdigits2 m - n - 1) with (Zdigits2 m - 1 - n) by lia.
Qed.

Lemma digits_shr_zero m n : 0 ≤ m → Zdigits2 m ≤ n → m / 2 ^ n = 0.
Proof.
  intros Hm Hn. destruct (Z.eq_dec m 0) as [->|]; [apply Z.div_0_l|].
  { assert (0 ≤ n) by (simpl in Hn; lia).
    assert (0 < 2 ^ n) by (apply Z.pow_pos_nonneg; lia). lia. }
  assert (0 < m) as Hpos by lia.
  pose proof (Zdigits2_pos m Hpos).
  apply Z.div_small. split; [done|]. by apply Zdigits2_le_iff.
Qed.

(** *** Shifting a mantissa right *)

Lemma shr_1_m mrs : 0 ≤ shr_m mrs → shr_m (shr_1 mrs) = shr_m mrs / 2.
Proof.
  destruct mrs as [m r s]. simpl. intros Hm.
  destruct m as [|[p|p|]|p]; simpl; try lia; try done.
  - by rewrite Pos2Z.inj_xI, Z.mul_comm, Z.div_add_l by lia.
  - by rewrite Pos2Z.inj_xO, Z.mul_comm, Z.div_mul by lia.
Qed.

Lemma iter_shr_1_m p : ∀ mrs,
  0 ≤ shr_m mrs → shr_m (iter_pos shr_1 p mrs) = shr_m mrs / 2 ^ Zpos p.
Proof.
  induction p as [p IH|p IH|]; intros mrs Hm; simpl iter_pos.
  - assert (0 ≤ shr_m (shr_1 mrs)) as H1
      by (rewrite shr_1_m by done; apply Z.div_pos; lia).
    assert (0 ≤ shr_m (iter_pos shr_1 p (shr_1 mrs))) as H2
      by (rewrite IH by done; apply Z.div_pos; [done|by apply Z.pow_pos_nonneg]).
    rewrite IH, IH, shr_1_m by done.
    rewrite !Z.div_div by (try apply Z.pow_pos_nonneg; lia).
    f_equal. replace (Z.pos p~1) with (1 + Z.pos p + Z.pos p) by lia.
    rewrite !Z.pow_add_r by lia. lia.
  - assert (0 ≤ shr_m (iter_pos shr_1 p mrs)) as H2
      by (rewrite IH by done; apply Z.div_pos; [done|by apply Z.pow_pos_nonneg]).
    rewrite IH, IH by done.
    rewrite !Z.div_div by (try apply Z.pow_pos_nonneg; lia).
    f_equal. replace (Z.pos p~0) with (Z.pos p + Z.pos p) by lia.
    rewrite !Z.pow_add_r by lia. lia.
  - by rewrite shr_1_m.
Qed.

Lemma shr_spec mrs e n :
  0 ≤ shr_m mrs →
  shr_m (shr mrs e n).1 = shr_m mrs / 2 ^ Z.max 0 n
  ∧ (shr mrs e n).2 = e + Z.max 0 n.
Proof.
  intros Hm. destruct n as [|p|p]; simpl.
  - by rewrite Z.div_1_r, Z.add_0_r.
  - rewrite iter_shr_1_m by done. done.
  - by rewrite Z.div_1_r, Z.add_0_r.
Qed.

Lemma shr_m_of_loc m l : shr_m (shr_record_of_loc m l) = m.
Proof. by destruct l as [|[]]. Qed.

Lemma round_nearest_even_bounds m l :
  m ≤ round_nearest_even m l ≤ m + 1.
Proof.
  unfold round_nearest_even. destruct l as [|[]]; try lia.
  destruct (Z.even m); lia.
Qed.

(** *** Rounding: [binary_round_aux] in terms of integers *)

Lemma bra_unfold sx mx ex lx :
  0 ≤ mx →
  ∃ m1', let n1 := Z.max 0 (fexp (Zdigits2 mx + ex) - ex) in
         let e1 := ex + n1 in
         let n2 := Z.max 0 (fexp (Zdigits2 m1' + e1) - e1) in
         mx / 2 ^ n1 ≤ m1' ≤ mx / 2 ^ n1 + 1
         ∧ bra sx mx ex lx
           = match m1' / 2 ^ n2 with
             | Z0 => S754_zero sx
             | Zpos m => if e1 + n2 <=? emax - prec
                         then S754_finite sx m (e1 + n2)
                         else S754_infinity sx
             | Zneg _ => S754_nan
             end.
Proof.
  intros Hm. unfold binary_round_aux, shr_fexp.
  pose proof (shr_spec (shr_record_of_loc mx lx) ex
                (fexp (Zdigits2 mx + ex) - ex)) as H1.
  rewrite shr_m_of_loc in H1. specialize (H1 Hm).
  destruct (shr (shr_record_of_loc mx lx) ex (fexp (Zdigits2 mx + ex) - ex))
    as [mrs1 e1]. simpl in H1. destruct H1 as [H1 ->].
  set (m1' := round_nearest_even (shr_m mrs1) (loc_of_shr_record mrs1)).
  exists m1'. cbv zeta.
  pose proof (round_nearest_even_bounds (shr_m mrs1) (loc_of_shr_record mrs1)) as Hb.
  fold m1' in Hb. rewrite H1 in Hb. split; [done|].
  assert (0 ≤ mx / 2 ^ Z.max 0 (fexp (Zdigits2 mx + ex) - ex)) as H0
    by (apply Z.div_pos; [done|apply Z.pow_pos_nonneg; lia]).
  pose proof (shr_spec (shr_record_of_loc m1' loc_Exact)
                (ex + Z.max 0 (fexp (Zdigits2 mx + ex) - ex))
                (fexp (Zdigits2 m1' + (ex + Z.max 0 (fexp (Zdigits2 mx + ex) - ex)))
                 - (ex + Z.max 0 (fexp (Zdigits2 mx + ex) - ex)))) as H2.
  rewrite shr_m_of_loc in H2. specialize (H2 ltac:(lia)).
  destruct (shr _ _ _) as [mrs2 e2]. simpl in H2. destruct H2 as [-> ->].
  done.
Qed.

Lemma Zdigits2_near m m' :
  0 < m → m ≤ m' ≤ m + 1 → Zdigits2 m ≤ Zdigits2 m' ≤ Zdigits2 m + 1.
Proof.
  intros Hm Hb. destruct (Z.eq_dec m' m) as [->|]; [lia|].
  replace m' with (m + 1) by lia. by apply Zdigits2_succ.
Qed.

(** A mantissa whose value is above the smallest subnormal rounds to a
    number of the same magnitude or the next one, or to an infinity. *)
Lemma bra_normal sx mx ex lx :
  0 < mx → -1074 < Zdigits2 mx + ex →
  ∃ m e,
    bra sx mx ex lx
    = (if e <=? 971 then S754_finite sx m e else S754_infinity sx)
    ∧ Zdigits2 mx + ex ≤ Zdigits2 (Zpos m) + e ≤ Zdigits2 mx + ex + 1
    ∧ e = Z.max ex (fexp (Zdigits2 (Zpos m) + e)).
Proof.
  intros Hm HM.
  destruct (bra_unfold sx mx ex lx) as (m1' & Hb & ->); [lia|].
  cbv zeta in Hb |- *. rewrite !fexp_eq in Hb |- *. rewrite !fexp_eq.
  pose proof (Zdigits2_pos mx Hm) as Hd0.
  set (n1 := Z.max 0 (Z.max (Zdigits2 mx + ex - 53) (-1074) - ex)) in *.
  assert (0 ≤ n1 < Zdigits2 mx
          ∧ ex + n1 = Z.max ex (Z.max (Zdigits2 mx + ex - 53) (-1074)))
    as (Hn1 & He1) by (subst n1; lia).
  clearbody n1.
  destruct (digits_shr mx n1) as [Hq Hd]; [done|lia|lia|].
  pose proof (Zdigits2_near _ _ Hq Hb) as Hd'.
  generalize dependent (mx / 2 ^ n1). intros m1 Hb Hq Hd Hd'.
  assert (0 < m1') as Hm1' by lia.
  set (n2 := Z.max 0 (Z.max (Zdigits2 m1' + (ex + n1) - 53) (-1074) - (ex + n1))).
  assert (0 ≤ n2 < Zdigits2 m1'
          ∧ ex + n1 + n2
            = Z.max (ex + n1) (Z.max (Zdigits2 m1' + (ex + n1) - 53) (-1074)))
    as (Hn2 & He2) by (subst n2; lia).
  clearbody n2.
  destruct (digits_shr m1' n2) as [Hq2 Hd2]; [done|lia|lia|].
  destruct (m1' / 2 ^ n2) as [|m|m] eqn:Hm2; try lia.
  exists m, (ex + n1 + n2). split; [done|]. rewrite fexp_eq. lia.
Qed.

(** The sign of a rounded number is the one given; no NaN arises. *)
Lemma bra_sign sx mx ex lx :
  0 ≤ mx →
  bra sx mx ex lx = S754_zero sx ∨ bra sx mx ex lx = S754_infinity sx
  ∨ ∃ m e, bra sx mx ex lx = S754_finite sx m e.
Proof.
  intros Hm. destruct (bra_unfold sx mx ex lx) as (m1' & Hb & ->); [done|].
  cbv zeta in Hb |- *.
  assert (0 ≤ m1') as H1.
  { assert (0 ≤ mx / 2 ^ Z.max 0 (fexp (Zdigits2 mx + ex) - ex))
      by (apply Z.div_pos; [done|apply Z.pow_pos_nonneg; lia]). lia. }
  match goal with
  | |- context [m1' / 2 ^ ?n] =>
      assert (0 ≤ m1' / 2 ^ n) as H2
        by (apply Z.div_pos; [done|apply Z.pow_pos_nonneg; lia]);
      destruct (m1' / 2 ^ n) as [|m|m]; try lia
  end.
  - by left.
  - destruct (Z.leb _ _); [right; right; eauto|right; left; done].
Qed.

(** A mantissa of magnitude below [emax] rounds to a zero or to a finite
    number, of magnitude at most one more. *)
Lemma bra_small sx mx ex lx :
  0 < mx → ex ≤ 971 → Zdigits2 mx + ex + 1 ≤ 1024 →
  bra sx mx ex lx = S754_zero sx
  ∨ ∃ m e, bra sx mx ex lx = S754_finite sx m e
           ∧ Zdigits2 (Zpos m) + e ≤ Z.max (Zdigits2 mx + ex) (-1074) + 1.
Proof.
  intros Hm He HM.
  destruct (Z.lt_ge_cases (-1074) (Zdigits2 mx + ex)) as [Hn|Hn].
  - right. destruct (bra_normal sx mx ex lx Hm Hn) as (m & e & -> & Hb & He').
    rewrite fexp_eq in He'. exists m, e.
    assert ((e <=? 971) = true) as -> by (apply Z.leb_le; lia).
    split; [done|lia].
  - destruct (bra_unfold sx mx ex lx) as (m1' & Hb & ->); [lia|].
    cbv zeta in Hb |- *. rewrite !fexp_eq in Hb |- *. rewrite !fexp_eq.
    pose proof (Zdigits2_pos mx Hm) as Hd0.
    set (n1 := Z.max 0 (Z.max (Zdigits2 mx + ex - 53) (-1074) - ex)) in *.
    rewrite (digits_shr_zero mx n1) in Hb by lia.
    assert (ex + n1 = -1074) as -> by lia.
    destruct (Z.eq_dec m1' 0) as [->|]; [by left|].
    assert (m1' = 1) as -> by lia. right. exists 1%positive, (-1074).
    split; [done|]. simpl. lia.
Qed.

(** *** More on digits *)

Lemma digits_shl m n : 0 < m → 0 ≤ n → Zdigits2 (m * 2 ^ n) = Zdigits2 m + n.
Proof.
  intros Hm Hn. assert (0 < 2 ^ n) by (apply Z.pow_pos_nonneg; lia).
  rewrite !Zdigits2_log2 by lia. rewrite Z.log2_mul_pow2 by lia. lia.
Qed.

Lemma digits_mul a b :
  0 < a → 0 < b → Zdigits2 (a * b) ≤ Zdigits2 a + Zdigits2 b.
Proof.
  intros Ha Hb. apply Zdigits2_le_iff; [lia|].
  pose proof (Zdigits2_bounds a Ha) as [_ Hua].
  pose proof (Zdigits2_bounds b Hb) as [_ Hub].
  pose proof (Zdigits2_pos a Ha). pose proof (Zdigits2_pos b Hb).
  rewrite Z.pow_add_r by lia. nia.
Qed.


Lemma digits_sqrt n q :
  0 < n → 0 ≤ q → q * q ≤ n < (q + 1) * (q + 1) →
  0 < q ∧ Zdigits2 q = (Zdigits2 n + 1) / 2.
Proof.
  intros Hn Hq [Hl Hu].
  pose proof (Zdigits2_bounds n Hn) as [Hln Hun].
  pose proof (Zdigits2_pos n Hn) as Hd.
  set (h := (Zdigits2 n + 1) / 2).
  assert (1 ≤ h ∧ Zdigits2 n ≤ 2 * h ∧ 2 * h - 2 ≤ Zdigits2 n - 1)
    as (Hh1 & Hh2 & Hh3) by (subst h; Z.div_mod_to_equations; lia).
  clearbody h.
  assert (0 < 2 ^ h) by (apply Z.pow_pos_nonneg; lia).
  assert (0 < 2 ^ (h - 1)) by (apply Z.pow_pos_nonneg; lia).
  assert (2 ^ Zdigits2 n ≤ 2 ^ h * 2 ^ h) as H1.
  { rewrite <- Z.pow_add_r by lia. apply Z.pow_le_mono_r; lia. }
  assert (2 ^ (h - 1) * 2 ^ (h - 1) ≤ 2 ^ (Zdigits2 n - 1)) as H2.
  { rewrite <- Z.pow_add_r by lia. apply Z.pow_le_mono_r; lia. }
  assert (2 ^ (h - 1) ≤ q) as H3 by nia.
  assert (q < 2 ^ h) as H4 by nia.
  assert (0 < q) as Hq' by lia.
  split; [done|]. apply Z.le_antisymm.
  - by apply Zdigits2_le_iff.
  - by apply Zdigits2_ge_iff.
Qed.

(** *** Valid numbers *)

Lemma bounded_facts m e :
  bounded prec emax m e = true →
  -1074 ≤ e ≤ 971 ∧ e = Z.max (Zdigits2 (Zpos m) + e - 53) (-1074).
Proof.
  unfold bounded, canonical_mantissa. intros [H1 H2]%andb_true_iff.
  apply Z.eqb_eq in H1. apply Z.leb_le in H2.
  change (fexp (Zdigits2 (Zpos m) + e) = e) in H1. rewrite fexp_eq in H1.
  change (emax - prec) with 971 in H2. lia.
Qed.

Lemma bounded_mag m e :
  bounded prec emax m e = true →
  -1074 < Zdigits2 (Zpos m) + e ≤ 1024.
Proof.
  intros [H1 H2]%bounded_facts.
  pose proof (Zdigits2_pos (Zpos m) ltac:(done)). lia.
Qed.

(** *** Square root *)

Lemma SFsqrt_posfin m e :
  bounded prec emax m e = true →
  ∃ m' e',
    SFsqrt prec emax (S754_finite false m e) = S754_finite false m' e'
    ∧ (Zdigits2 (Zpos m) + e + 1) / 2 ≤ Zdigits2 (Zpos m') + e'
      ≤ (Zdigits2 (Zpos m) + e + 1) / 2 + 1.
Proof.
  intros Hb. pose proof (bounded_mag m e Hb) as HM.
  pose proof (bounded_facts m e Hb) as [He _].
  pose proof (Zdigits2_pos (Zpos m) ltac:(done)) as Hd.
  unfold SFsqrt, SFsqrt_core_binary. rewrite fexp_eq, !Z.div2_div.
  set (e0 := Z.min (Z.max ((Zdigits2 (Z.pos m) + e + 1) / 2 - 53) (-1074)) (e / 2)).
  assert (0 ≤ e - 2 * e0
          ∧ e0 ≤ Z.max ((Zdigits2 (Z.pos m) + e + 1) / 2 - 53) (-1074))
    as [Hs He0] by (subst e0; Z.div_mod_to_equations; lia).
  clearbody e0.
  assert (match e - 2 * e0 with
          | Z0 => Zpos m
          | Zpos _ => Z.shiftl (Zpos m) (e - 2 * e0)
          | Zneg _ => 0
          end = Zpos m * 2 ^ (e - 2 * e0)) as ->.
  { destruct (e - 2 * e0) as [|p|p] eqn:E; try lia.
    by rewrite Z.shiftl_mul_pow2. }
  pose proof (Z.sqrtrem_spec (Zpos m * 2 ^ (e - 2 * e0))) as Hsq.
  assert (0 < 2 ^ (e - 2 * e0)) by (apply Z.pow_pos_nonneg; lia).
  destruct (Z.sqrtrem (Z.pos m * 2 ^ (e - 2 * e0))) as [q r].
  destruct Hsq as [Hsq Hr]; [lia|].
  destruct (digits_sqrt (Zpos m * 2 ^ (e - 2 * e0)) q) as [Hq Hdq]; [lia|lia|nia|].
  rewrite digits_shl in Hdq by lia.
  match goal with
  | |- context [bra false q e0 ?l] =>
      destruct (bra_normal false q e0 l) as (m' & e' & -> & Hmag & He');
        [done|Z.div_mod_to_equations; lia|]
  end.
  rewrite fexp_eq in He'.
  assert ((e' <=? 971) = true) as ->
    by (apply Z.leb_le; Z.div_mod_to_equations; lia).
  exists m', e'. split; [done|]. Z.div_mod_to_equations; lia.
Qed.

(** *** Division *)


(** *** Product *)

Lemma SFmul_finite sx mx ex sy my ey :
  ex + ey ≤ 971 →
  Zdigits2 (Zpos mx) + ex + (Zdigits2 (Zpos my) + ey) + 1 ≤ 1024 →
  sf_finite (SFmul prec emax (S754_finite sx mx ex) (S754_finite sy my ey)) = true.
Proof.
  intros He HM. unfold SFmul.
  pose proof (digits_mul (Zpos mx) (Zpos my) ltac:(done) ltac:(done)) as Hd.
  destruct (bra_small (xorb sx sy) (Zpos (mx * my)) (ex + ey) loc_Exact)
    as [->|(m & e & -> & _)]; try done.
  rewrite Pos2Z.inj_mul. lia.
Qed.

(** *** Signs *)

Lemma bra_plus mx ex lx : 0 ≤ mx → sf_plus (bra false mx ex lx) = true.
Proof.
  intros Hm. by destruct (bra_sign false mx ex lx Hm) as [->|[->|(m & e & ->)]].
Qed.

Lemma SFmul_self_plus d :
  sf_plus_or_nan (SFmul prec emax d d) = true.
Proof.
  destruct d as [[]|[]| |s m e]; try done. unfold SFmul.
  rewrite xorb_nilpotent. unfold sf_plus_or_nan. by rewrite bra_plus.
Qed.


Lemma SFsqrt_plus y : sf_plus y = true → sf_plus (SFsqrt prec emax y) = true.
Proof.
  destruct y as [[]|[]| |[] m e]; try done. intros _.
  unfold SFsqrt, SFsqrt_core_binary.
  match goal with
  | |- context [Z.sqrtrem ?n] =>
      pose proof (Z.sqrtrem_spec n) as Hsq;
      assert (0 ≤ n) as Hn
        by (destruct (e - 2 * _) eqn:E; try lia; apply Z.shiftl_nonneg; lia);
      destruct (Z.sqrtrem n) as [q r]
  end.
  specialize (Hsq Hn). rewrite bra_plus; [done|lia].
Qed.



(** *** Comparison *)

Lemma SFltb_between m1 e1 x m2 e2 :
  SFltb (S754_finite false m1 e1) x = true →
  SFltb x (S754_finite false m2 e2) = true →
  ∃ m e, x = S754_finite false m e ∧ e1 ≤ e ≤ e2.
Proof.
  unfold SFltb. destruct x as [s|[]| |[] m e]; simpl; try done.
  intros H1 H2. exists m, e. split; [done|]. split.
  - destruct (e1 ?= e) eqn:E; try done.
    + apply Z.compare_eq in E. lia.
    + rewrite Z.compare_lt_iff in E. lia.
  - destruct (e ?= e2) eqn:E; try done.
    + apply Z.compare_eq in E. lia.
    + rewrite Z.compare_lt_iff in E. lia.
Qed.

Lemma SFltb_below x m2 e2 :
  sf_nonneg x = true →
  SFltb x (S754_finite false m2 e2) = true →
  sf_finite x = true ∧ (∀ s m e, x = S754_finite s m e → e ≤ e2).
Proof.
  unfold SFltb. destruct x as [s|[]| |[] m e]; simpl; try done.
  intros _. destruct (e ?= e2) eqn:E; try done.
  - apply Z.compare_eq in E. intros _. split; [done|].
    intros s' m' e' [= <- <- <-]. lia.
  - rewrite Z.compare_lt_iff in E. intros _. split; [done|].
    intros s' m' e' [= <- <- <-]. lia.
Qed.

Lemma SFltb_abs_below x m2 e2 :
  SFltb (SFabs x) (S754_finite false m2 e2) = true →
  sf_finite x = true ∧ (∀ s m e, x = S754_finite s m e → e ≤ e2).
Proof.
  intros H. destruct (SFltb_below (SFabs x) m2 e2) as [Hf He].
  - by destruct x as [[]|[]| |[] m e].
  - done.
  - split; [by destruct x|]. intros s m e ->. by eapply (He false m e).
Qed.

(** *** Conversion of an integer, and subtraction *)

Lemma iter_xO m d : Zpos (Pos.iter xO m d) = Zpos m * 2 ^ Zpos d.
Proof.
  induction d as [|d IH] using Pos.peano_ind.
  - simpl. lia.
  - rewrite Pos.iter_succ, Pos2Z.inj_xO, IH, Pos2Z.inj_succ, Z.pow_succ_r by lia.
    lia.
Qed.

Lemma shl_align_spec mx ex ex' :
  (shl_align mx ex ex').2 = Z.min ex ex'
  ∧ Zpos (shl_align mx ex ex').1 = Zpos mx * 2 ^ (ex - Z.min ex ex').
Proof.
  unfold shl_align. destruct (ex' - ex) as [|d|d] eqn:E; simpl.
  - replace (Z.min ex ex') with ex by lia. rewrite Z.sub_diag. lia.
  - replace (Z.min ex ex') with ex by lia. rewrite Z.sub_diag. lia.
  - replace (Z.min ex ex') with ex' by lia.
    replace (ex - ex') with (Zpos d) by lia. split; [done|apply iter_xO].
Qed.

Lemma shl_align_mag mx ex ex' :
  Zdigits2 (Zpos (shl_align mx ex ex').1) + (shl_align mx ex ex').2
  = Zdigits2 (Zpos mx) + ex.
Proof.
  destruct (shl_align_spec mx ex ex') as [-> ->].
  rewrite digits_shl by lia. lia.
Qed.

(** A number of magnitude below [emax] rounds to a zero or to a valid
    finite number of magnitude at most one more. *)
Lemma binary_round_small sx mx ex :
  Zdigits2 (Zpos mx) + ex + 1 ≤ 1024 →
  binary_round prec emax sx mx ex = S754_zero sx
  ∨ ∃ m e, binary_round prec emax sx mx ex = S754_finite sx m e
           ∧ Zdigits2 (Zpos m) + e ≤ Z.max (Zdigits2 (Zpos mx) + ex) (-1074) + 1.
Proof.
  intros HM. unfold binary_round.
  pose proof (shl_align_mag mx ex (fexp (Zdigits2 (Zpos mx) + ex))) as Hmag.
  destruct (shl_align_spec mx ex (fexp (Zdigits2 (Zpos mx) + ex))) as [He _].
  change (Z.pos (digits2_pos mx)) with (Zdigits2 (Zpos mx)).
  destruct (shl_align mx ex (fexp (Zdigits2 (Zpos mx) + ex))) as [mz ez].
  cbn [fst snd] in Hmag, He. rewrite fexp_eq in He.
  destruct (bra_small sx (Zpos mz) ez loc_Exact) as [->|(m & e & -> & Hb)];
    [done|lia|lia|by left|].
  right. exists m, e. split; [done|lia].
Qed.

(** A number of magnitude between [emin] and [emax] rounds to a valid
    finite number of the same magnitude or the next one. *)
Lemma binary_round_normal sx mx ex :
  -1074 < Zdigits2 (Zpos mx) + ex → Zdigits2 (Zpos mx) + ex + 1 ≤ 1024 →
  ∃ m e, binary_round prec emax sx mx ex = S754_finite sx m e
         ∧ bounded prec emax m e = true
         ∧ Zdigits2 (Zpos mx) + ex ≤ Zdigits2 (Zpos m) + e
           ≤ Zdigits2 (Zpos mx) + ex + 1.
Proof.
  intros Hlo Hhi. unfold binary_round.
  pose proof (shl_align_mag mx ex (fexp (Zdigits2 (Zpos mx) + ex))) as Hmag.
  destruct (shl_align_spec mx ex (fexp (Zdigits2 (Zpos mx) + ex))) as [He _].
  change (Z.pos (digits2_pos mx)) with (Zdigits2 (Zpos mx)).
  destruct (shl_align mx ex (fexp (Zdigits2 (Zpos mx) + ex))) as [mz ez].
  cbn [fst snd] in Hmag, He. rewrite fexp_eq in He.
  destruct (bra_normal sx (Zpos mz) ez loc_Exact) as (m & e & -> & Hb & He');
    [done|lia|].
  rewrite fexp_eq in He'.
  assert ((e <=? 971) = true) as -> by (apply Z.leb_le; lia).
  exists m, e. split; [done|]. split; [|lia].
  unfold bounded, canonical_mantissa. apply andb_true_iff. split.
  - apply Z.eqb_eq. change (fexp (Zdigits2 (Zpos m) + e) = e).
    rewrite fexp_eq. lia.
  - apply Z.leb_le. change (emax - prec) with 971. lia.
Qed.

Lemma SFsub_small sx mx ex sy my ey K :
  Zdigits2 (Zpos mx) + ex ≤ K → Zdigits2 (Zpos my) + ey ≤ K → K + 2 ≤ 1024 →
  sf_below (Z.max K (-1074) + 2)
    (SFsub prec emax (S754_finite sx mx ex) (S754_finite sy my ey)).
Proof.
  intros Hx Hy HK. unfold SFsub.
  set (ez := Z.min ex ey).
  pose proof (shl_align_mag mx ex ez) as Hmx.
  pose proof (shl_align_mag my ey ez) as Hmy.
  destruct (shl_align_spec mx ex ez) as [Hex _].
  destruct (shl_align_spec my ey ez) as [Hey _].
  destruct (shl_align mx ex ez) as [mx' ex'].
  destruct (shl_align my ey ez) as [my' ey']. cbn [fst snd] in *.
  assert (ex' = ez ∧ ey' = ez) as [-> ->] by (subst ez; lia).
  pose proof (Zdigits2_bounds (Zpos mx') ltac:(done)) as [_ Hux].
  pose proof (Zdigits2_bounds (Zpos my') ltac:(done)) as [_ Huy].
  pose proof (Zdigits2_pos (Zpos mx') ltac:(done)) as Hdx.
  pose proof (Zdigits2_pos (Zpos my') ltac:(done)) as Hdy.
  assert (0 ≤ K - ez) as HKe by lia.
  assert (Z.pos mx' < 2 ^ (K - ez)) as Hbx
    by (eapply Z.lt_le_trans; [exact Hux|apply Z.pow_le_mono_r; lia]).
  assert (Z.pos my' < 2 ^ (K - ez)) as Hby
    by (eapply Z.lt_le_trans; [exact Huy|apply Z.pow_le_mono_r; lia]).
  assert (2 ^ (K - ez + 1) = 2 * 2 ^ (K - ez)) as Hp
    by (rewrite Z.pow_add_r by lia; lia).
  clearbody ez.
  assert (∀ p : positive, Zpos p < 2 ^ (K - ez + 1) →
            ∀ s, sf_below (Z.max K (-1074) + 2) (binary_round prec emax s p ez))
    as Hround.
  { intros p Hp' s.
    assert (Zdigits2 (Zpos p) ≤ K - ez + 1) as Hdp by (by apply Zdigits2_le_iff).
    destruct (binary_round_small s p ez) as [->|(m & e & -> & Hb)];
      [lia|done|]. unfold sf_below. lia. }
  unfold binary_normalize, cond_Zopp.
  destruct sx, sy;
    match goal with
    | |- context [match ?a with Z0 => _ | Zpos _ => _ | Zneg _ => _ end] =>
        destruct a as [|p|p] eqn:E; [done|apply Hround; lia..]
    end.
Qed.

End RoundSpec.

(** ** Binary64: rounding to nearest *)

Section RoundNearest.
Import SpecFloat.
Local Open Scope Z_scope.

Local Abbreviation prec := FloatOps.prec.
Local Abbreviation emax := FloatOps.emax.
Local Abbreviation fexp := (SpecFloat.fexp FloatOps.prec FloatOps.emax).
Local Abbreviation bra := (binary_round_aux FloatOps.prec FloatOps.emax).

Lemma iter_pos_nat {A} (f : A → A) p : ∀ x,
  iter_pos f p x = Nat.iter (Pos.to_nat p) f x.
Proof.
  induction p as [p IH|p IH|]; intros x; simpl iter_pos.
  - rewrite !IH, Pos2Nat.inj_xI. rewrite <- Nat.iter_add.
    replace (S (2 * Pos.to_nat p)) with (S (Pos.to_nat p + Pos.to_nat p))%nat by lia.
    by rewrite Nat.iter_succ_r.
  - rewrite !IH, Pos2Nat.inj_xO. rewrite <- Nat.iter_add.
    by replace (2 * Pos.to_nat p)%nat with (Pos.to_nat p + Pos.to_nat p)%nat by lia.
  - done.
Qed.

(** After [k] shifts of [P]: the quotient, and where the remainder lies
    with respect to half of [2^k]. *)
Lemma iter_shr_1_rem (P : Z) (k : nat) :
  0 ≤ P →
  ∃ rem,
    let mrs := Nat.iter k shr_1 (Build_shr_record P false false) in
    0 ≤ shr_m mrs
    ∧ P = shr_m mrs * 2 ^ Z.of_nat k + rem
    ∧ 0 ≤ rem < 2 ^ Z.of_nat k
    ∧ (shr_r mrs = true ↔ 2 ^ Z.of_nat k ≤ 2 * rem)
    ∧ (shr_s mrs = true ↔ rem ≠ 0 ∧ 2 * rem ≠ 2 ^ Z.of_nat k).
Proof.
  intros HP. induction k as [|k IH].
  - exists 0. simpl. repeat split; try lia; try done.
  - destruct IH as (rem & Hm & HPeq & Hrem & Hr & Hs).
    rewrite Nat.iter_succ. cbv zeta in *.
    destruct (Nat.iter k shr_1 (Build_shr_record P false false)) as [m r s].
    cbn [shr_m shr_r shr_s] in *.
    rewrite Nat2Z.inj_succ, Z.pow_succ_r by lia.
    assert (0 < 2 ^ Z.of_nat k) as Hpow by (apply Z.pow_pos_nonneg; lia).
    assert (orb r s = true ↔ rem ≠ 0) as Hrs.
    { rewrite orb_true_iff, Hr, Hs. destruct k; simpl in *; lia. }
    destruct m as [|[p|p|]|p]; try lia; cbn [shr_1 shr_m shr_r shr_s].
    + exists rem. rewrite Hrs. repeat split; try lia; try done.
    + exists (rem + 2 ^ Z.of_nat k). rewrite Hrs.
      rewrite Pos2Z.inj_xI in HPeq. repeat split; try lia.
    + exists rem. rewrite Hrs.
      rewrite Pos2Z.inj_xO in HPeq. repeat split; try lia; try done.
    + exists (rem + 2 ^ Z.of_nat k). rewrite Hrs. repeat split; try lia.
Qed.

(** Rounding to nearest after [k >= 1] shifts: the rounded mantissa is
    within half a unit of [P / 2^k]. *)
Lemma shr_round_exact (P : Z) (p : positive) :
  0 ≤ P →
  let mrs := iter_pos shr_1 p (shr_record_of_loc P loc_Exact) in
  let m' := round_nearest_even (shr_m mrs) (loc_of_shr_record mrs) in
  P / 2 ^ Zpos p ≤ m' ≤ P / 2 ^ Zpos p + 1
  ∧ - 2 ^ Zpos p ≤ 2 * (m' * 2 ^ Zpos p - P) ≤ 2 ^ Zpos p.
Proof.
  intros HP. cbv zeta.
  pose proof (iter_shr_1_m p (shr_record_of_loc P loc_Exact)) as Hq.
  rewrite shr_m_of_loc in Hq. specialize (Hq HP).
  rewrite iter_pos_nat in Hq |- *.
  destruct (iter_shr_1_rem P (Pos.to_nat p) HP) as (rem & Hm & HPeq & Hrem & Hr & Hs).
  cbv zeta in *. rewrite positive_nat_Z in *.
  change (shr_record_of_loc P loc_Exact) with (Build_shr_record P false false) in *.
  destruct (Nat.iter (Pos.to_nat p) shr_1 (Build_shr_record P false false))
    as [m r s].
  cbn [shr_m shr_r shr_s] in *.
  assert (0 < 2 ^ Zpos p) as Hpow by (apply Z.pow_pos_nonneg; lia).
  rewrite <- Hq. clear Hq.
  assert (r = true ∨ r = false) as [-> | ->] by (destruct r; auto);
    assert (s = true ∨ s = false) as [-> | ->] by (destruct s; auto);
    cbn [loc_of_shr_record round_nearest_even]; try destruct (Z.even m);
    destruct Hr as [Hr1 Hr2]; destruct Hs as [Hs1 Hs2];
    try specialize (Hr1 eq_refl); try specialize (Hs1 eq_refl);
    try (assert (¬ 2 ^ Zpos p ≤ 2 * rem) by (intros H; by specialize (Hr2 H)));
    try (assert (¬ (rem ≠ 0 ∧ 2 * rem ≠ 2 ^ Zpos p)) by (intros H; by specialize (Hs2 H)));
    nia.
Qed.

Lemma loc_of_shr_record_of_loc m l :
  loc_of_shr_record (shr_record_of_loc m l) = l.
Proof. by destruct l as [|[]]. Qed.

(** A mantissa of exactly [prec] digits in the normal range is rounded
    in place. *)
Lemma bra_noshift sx mx ex lx :
  Zdigits2 mx = 53 → 0 < mx → -1074 ≤ ex ≤ 971 →
  round_nearest_even mx lx < 2 ^ 53 →
  ∃ p, round_nearest_even mx lx = Zpos p
       ∧ bra sx mx ex lx = S754_finite sx p ex.
Proof.
  intros Hd Hm He Hr. unfold binary_round_aux, shr_fexp.
  rewrite Hd, fexp_eq.
  replace (Z.max (53 + ex - 53) (-1074) - ex) with 0 by lia.
  cbn [shr]. rewrite shr_m_of_loc, loc_of_shr_record_of_loc.
  pose proof (round_nearest_even_bounds mx lx) as Hb.
  set (m' := round_nearest_even mx lx) in *.
  assert (Zdigits2 m' = 53) as Hd'.
  { apply Z.le_antisymm.
    - apply Zdigits2_le_iff; lia.
    - rewrite <- Hd. apply Zdigits2_ge_iff; [lia|].
      pose proof (Zdigits2_bounds mx Hm). lia. }
  rewrite Hd', fexp_eq.
  replace (Z.max (53 + ex - 53) (-1074) - ex) with 0 by lia.
  cbn [shr]. rewrite shr_m_of_loc.
  destruct m' as [|p|p] eqn:E; try lia.
  exists p. split; [done|].
  by assert ((ex <=? emax - prec) = true) as -> by (apply Z.leb_le; change (emax - prec) with 971; lia).
Qed.

(** An exact mantissa of more than [prec] digits, in the normal range, is
    rounded to the nearest mantissa of [prec] digits. *)
Lemma bra_exact sx mx ex :
  0 < mx → 53 < Zdigits2 mx →
  -1074 ≤ Zdigits2 mx + ex - 53 → Zdigits2 mx + ex ≤ 1023 →
  ∃ m', 2 ^ 52 ≤ m' ≤ 2 ^ 53
        ∧ - 2 ^ (Zdigits2 mx - 53) ≤ 2 * (m' * 2 ^ (Zdigits2 mx - 53) - mx)
          ≤ 2 ^ (Zdigits2 mx - 53)
        ∧ (m' < 2 ^ 53 →
           ∃ p, m' = Zpos p
                ∧ bra sx mx ex loc_Exact
                  = S754_finite sx p (ex + (Zdigits2 mx - 53))).
Proof.
  intros Hm Hd Hlo Hhi. unfold binary_round_aux, shr_fexp at 1.
  rewrite fexp_eq.
  replace (Z.max (Zdigits2 mx + ex - 53) (-1074) - ex) with (Zdigits2 mx - 53) by lia.
  destruct (Zdigits2 mx - 53) as [|p|p] eqn:En; try lia.
  cbn [shr].
  pose proof (shr_round_exact mx p ltac:(lia)) as [Hb Hhalf]. cbv zeta in Hb, Hhalf.
  set (m' := round_nearest_even
               (shr_m (iter_pos shr_1 p (shr_record_of_loc mx loc_Exact)))
               (loc_of_shr_record (iter_pos shr_1 p (shr_record_of_loc mx loc_Exact))))
    in *.
  destruct (digits_shr mx (Zpos p)) as [Hq Hdq]; [done|lia|lia|].
  pose proof (Zdigits2_bounds _ Hq) as Hqb.
  replace (Zdigits2 (mx / 2 ^ Zpos p)) with 53 in Hqb by lia.
  exists m'. split; [change (53 - 1) with 52 in Hqb; lia|]. split; [done|].
  intros Hlt.
  assert (Zdigits2 m' = 53) as Hd'.
  { apply Z.le_antisymm.
    - apply Zdigits2_le_iff; lia.
    - apply Zdigits2_ge_iff; [lia|]. change (53 - 1) with 52 in *. lia. }
  unfold shr_fexp. rewrite Hd', fexp_eq.
  replace (Z.max (53 + (ex + Zpos p) - 53) (-1074) - (ex + Zpos p)) with 0 by lia.
  cbn [shr]. rewrite shr_m_of_loc.
  destruct m' as [|q|q] eqn:E; try lia.
  exists q. split; [done|].
  by assert ((ex + Zpos p <=? emax - prec) = true) as ->
    by (apply Z.leb_le; change (emax - prec) with 971; lia).
Qed.

(** The square of a normal number, away from overflow and underflow: its
    mantissa, and the exponent it is written with. *)
Lemma SFmul_self_round s m e :
  Zdigits2 (Zpos m) = 53 → -500 ≤ e ≤ 400 →
  ∃ m2 n,
    (n = 52 ∨ n = 53)
    ∧ SFmul prec emax (S754_finite s m e) (S754_finite s m e)
      = S754_finite false m2 (2 * e + n)
    ∧ 2 ^ 52 ≤ Zpos m2 < 2 ^ 53
    ∧ - 2 ^ n ≤ 2 * (Zpos m2 * 2 ^ n - Zpos m * Zpos m) ≤ 2 ^ n
    ∧ 2 ^ (52 + n) ≤ Zpos m * Zpos m < 2 ^ (53 + n).
Proof.
  intros Hd He. unfold SFmul. rewrite xorb_nilpotent, Pos2Z.inj_mul.
  pose proof (Zdigits2_bounds (Zpos m) ltac:(done)) as Hm. rewrite Hd in Hm.
  change (2 ^ (53 - 1)) with 4503599627370496 in Hm.
  change (2 ^ 53) with 9007199254740992 in Hm.
  set (P := Zpos m * Zpos m) in *.
  assert (0 < P) as HP by (subst P; lia).
  assert (2 ^ 104 ≤ P < 2 ^ 106) as HPb.
  { change (2 ^ 104) with (4503599627370496 * 4503599627370496).
    change (2 ^ 106) with (9007199254740992 * 9007199254740992). subst P. nia. }
  assert (Zdigits2 P = 105 ∨ Zdigits2 P = 106) as HdP.
  { assert (105 ≤ Zdigits2 P) by (apply Zdigits2_ge_iff; [done|]; change (105 - 1) with 104; lia).
    assert (Zdigits2 P ≤ 106) by (apply Zdigits2_le_iff; [done|lia]). lia. }
  replace (e + e) with (2 * e) by lia.
  destruct (bra_exact false P (2 * e)) as (m' & Hm' & Hhalf & Hres); [done|lia|lia|lia|].
  pose proof (Zdigits2_bounds P HP) as HPd.
  assert (m' < 2 ^ 53) as Hlt.
  { destruct (Z.eq_dec m' (2 ^ 53)) as [->|]; [exfalso|lia].
    destruct HdP as [HdP|HdP]; rewrite HdP in *.
    - change (105 - 53) with 52 in Hhalf. change (2 ^ 105) with 40564819207303340847894502572032 in HPd.
      change (2 ^ 53 * 2 ^ 52) with 40564819207303340847894502572032 in Hhalf.
      change (2 ^ 52) with 4503599627370496 in Hhalf.
      assert (Zpos m ≤ 6369051672525772) by (subst P; nia).
      subst P. nia.
    - change (106 - 53) with 53 in Hhalf.
      change (2 ^ 53 * 2 ^ 53) with 81129638414606681695789005144064 in Hhalf.
      change (2 ^ 53) with 9007199254740992 in Hhalf.
      subst P. nia. }
  destruct (Hres Hlt) as (m2 & -> & Hbra).
  exists m2, (Zdigits2 P - 53). split; [lia|]. split; [done|]. split; [lia|].
  split; [done|].
  destruct HdP as [HdP|HdP]; rewrite HdP in *.
  - change (52 + (105 - 53)) with (105 - 1). change (53 + (105 - 53)) with 105. done.
  - change (52 + (106 - 53)) with (106 - 1). change (53 + (106 - 53)) with 106. done.
Qed.

(** The square root of the rounded square of a normal number is the
    number. *)
Lemma SFsqrt_of_square m e m2 n :
  Zdigits2 (Zpos m) = 53 → -500 ≤ e ≤ 400 → n = 52 ∨ n = 53 →
  2 ^ 52 ≤ Zpos m2 < 2 ^ 53 →
  - 2 ^ n ≤ 2 * (Zpos m2 * 2 ^ n - Zpos m * Zpos m) ≤ 2 ^ n →
  2 ^ (52 + n) ≤ Zpos m * Zpos m < 2 ^ (53 + n) →
  SFsqrt prec emax (S754_finite false m2 (2 * e + n)) = S754_finite false m e.
Proof.
  intros Hd He Hn Hm2 Hhalf HP.
  pose proof (Zdigits2_bounds (Zpos m) ltac:(done)) as Hm. rewrite Hd in Hm.
  change (2 ^ (53 - 1)) with 4503599627370496 in Hm.
  change (2 ^ 53) with 9007199254740992 in Hm, Hm2.
  change (2 ^ 52) with 4503599627370496 in Hm2.
  assert (Zdigits2 (Zpos m2) = 53) as Hd2.
  { apply Z.le_antisymm.
    - apply Zdigits2_le_iff; [done|]. change (2 ^ 53) with 9007199254740992. lia.
    - apply Zdigits2_ge_iff; [done|]. change (2 ^ (53 - 1)) with 4503599627370496. lia. }
  unfold SFsqrt, SFsqrt_core_binary. rewrite Hd2, fexp_eq, !Z.div2_div.
  assert (Z.min (Z.max ((53 + (2 * e + n) + 1) / 2 - 53) (-1074)) ((2 * e + n) / 2) = e)
    as -> by (destruct Hn as [-> | ->]; Z.div_mod_to_equations; lia).
  replace (2 * e + n - 2 * e) with n by lia.
  assert (match n with
          | Z0 => Zpos m2
          | Zpos _ => Z.shiftl (Zpos m2) n
          | Zneg _ => 0
          end = Zpos m2 * 2 ^ n) as ->
    by (destruct Hn as [-> | ->]; by rewrite Z.shiftl_mul_pow2).
  set (V := Zpos m2 * 2 ^ n) in *.
  set (M := Zpos m) in *.
  assert (0 < 2 ^ n) as Hpow by (destruct Hn as [-> | ->]; done).
  assert (2 ^ n < 2 * M) as Hsmall.
  { destruct Hn as [-> | ->].
    - change (2 ^ 52) with 4503599627370496. lia.
    - change (52 + 53) with 105 in HP.
      change (2 ^ 105) with 40564819207303340847894502572032 in HP.
      change (2 ^ 53) with 9007199254740992. nia. }
  assert (0 ≤ V) as HV by (subst V; lia).
  pose proof (Z.sqrtrem_spec V HV) as Hsq.
  destruct (Z.sqrtrem V) as [q r]. destruct Hsq as [Hsq Hr].
  assert (0 ≤ q) as Hq0 by lia.
  destruct (Z.le_gt_cases (M * M) V) as [Hge|Hlt].
  - assert (q = M) as -> by nia.
    assert (r < M) as Hrq by nia.
    destruct (bra_noshift false M e
                (if r =? 0 then loc_Exact
                 else loc_Inexact (if r <=? M then Lt else Gt)))
      as (p & Hp & ->); [done|done|lia| |].
    + destruct (r =? 0); [simpl; lia|].
      assert ((r <=? M) = true) as -> by (apply Z.leb_le; lia). simpl. lia.
    + f_equal. destruct (r =? 0); [simpl in Hp; by injection Hp|].
      assert ((r <=? M) = true) as Hle by (apply Z.leb_le; lia).
      rewrite Hle in Hp. simpl in Hp. by injection Hp.
  - assert (q = M - 1) as -> by nia.
    assert (M - 1 < r) as Hrq by nia.
    assert (4503599627370496 < M) as HM.
    { destruct Hn as [-> | ->].
      - change (2 ^ 52) with 4503599627370496 in *. subst V. nia.
      - change (52 + 53) with 105 in HP.
        change (2 ^ 105) with 40564819207303340847894502572032 in HP. nia. }
    assert ((r =? 0) = false) as Hr0 by (apply Z.eqb_neq; lia).
    assert ((r <=? M - 1) = false) as Hrle by (apply Z.leb_gt; lia).
    rewrite Hr0, Hrle.
    destruct (bra_noshift false (M - 1) e (loc_Inexact Gt))
      as (p & Hp & ->); [|lia|lia| |].
    + apply Z.le_antisymm.
      * apply Zdigits2_le_iff; [lia|]. change (2 ^ 53) with 9007199254740992. lia.
      * apply Zdigits2_ge_iff; [lia|]. change (2 ^ (53 - 1)) with 4503599627370496. lia.
    + simpl. change (2 ^ 53) with 9007199254740992. lia.
    + f_equal. simpl in Hp. assert (Zpos p = Zpos m) as H by (subst M; lia).
      by injection H.
Qed.

(** A square that lies in the normal range comes from a normal number. *)
Lemma SFmul_self_normal s m e s2 m2 e2 :
  bounded prec emax m e = true →
  SFmul prec emax (S754_finite s m e) (S754_finite s m e) = S754_finite s2 m2 e2 →
  -100 ≤ e2 ≤ 0 →
  Zdigits2 (Zpos m) = 53 ∧ -500 ≤ e ≤ 400.
Proof.
  intros Hb Hmul He2. apply bounded_facts in Hb as [Hbe Hcanon].
  pose proof (Zdigits2_pos (Zpos m) ltac:(done)) as Hd0.
  pose proof (Zdigits2_pos (Zpos m2) ltac:(done)) as Hd2.
  unfold SFmul in Hmul. rewrite Pos2Z.inj_mul in Hmul.
  pose proof (digits_mul (Zpos m) (Zpos m) ltac:(done) ltac:(done)) as Hup.
  assert (2 * Zdigits2 (Zpos m) - 1 ≤ Zdigits2 (Zpos m * Zpos m)) as Hlow.
  { apply Zdigits2_ge_iff; [lia|].
    pose proof (Zdigits2_bounds (Zpos m) ltac:(done)) as [Hl _].
    replace (2 * Zdigits2 (Zpos m) - 1 - 1)
      with ((Zdigits2 (Zpos m) - 1) + (Zdigits2 (Zpos m) - 1)) by lia.
    rewrite Z.pow_add_r by lia.
    assert (0 < 2 ^ (Zdigits2 (Zpos m) - 1)) by (apply Z.pow_pos_nonneg; lia).
    nia. }
  destruct (Z.lt_ge_cases (-1074) (Zdigits2 (Zpos m * Zpos m) + (e + e))) as [Hn|Hn].
  - destruct (bra_normal (xorb s s) (Zpos m * Zpos m) (e + e) loc_Exact)
      as (m' & e' & Hbra & Hmag & He'); [lia|done|].
    rewrite Hbra in Hmul. rewrite fexp_eq in He'.
    destruct (e' <=? 971); [|done]. injection Hmul as _ -> ->.
    assert (Zdigits2 (Zpos m2) ≤ 53) by lia. lia.
  - destruct (bra_small (xorb s s) (Zpos m * Zpos m) (e + e) loc_Exact)
      as [Hbra|(m' & e' & Hbra & Hmag)]; [lia|lia|lia| |].
    + by rewrite Hbra in Hmul.
    + rewrite Hbra in Hmul. injection Hmul as _ -> ->. lia.
Qed.

End RoundNearest.

(** ** Binary64: the primitive operations *)

Section Binary64Prim.
Import SpecFloat.
Local Open Scope Z_scope.

Local Abbreviation prec := FloatOps.prec.
Local Abbreviation emax := FloatOps.emax.
Local Abbreviation SF := FloatOps.Prim2SF.

Implicit Types x t v : PrimFloat.float.

Lemma SF_zero : SF (Binary64.of_int 0) = S754_zero false.
Proof. reflexivity. Qed.


Lemma SF_infinity : SF PrimFloat.infinity = S754_infinity false.
Proof. reflexivity. Qed.

Lemma SFeqb_refl s : SFeqb s s = negb (sf_nan s).
Proof.
  unfold SFeqb. destruct s as [[]|[]| |[] m e]; simpl; try done.
  - by rewrite Z.compare_refl, Pos.compare_cont_refl.
  - by rewrite Z.compare_refl, Pos.compare_cont_refl.
Qed.

Lemma is_nan_spec x : PrimFloat.is_nan x = sf_nan (SF x).
Proof.
  unfold PrimFloat.is_nan.
  by rewrite FloatAxioms.eqb_spec, SFeqb_refl, negb_involutive.
Qed.

Lemma finite_spec x : Binary64.finite x = sf_finite (SF x).
Proof.
  unfold Binary64.finite, PrimFloat.is_infinity. rewrite is_nan_spec.
  rewrite FloatAxioms.eqb_spec, FloatAxioms.abs_spec, SF_infinity.
  by destruct (SF x) as [[]|[]| |[] m e].
Qed.

Lemma eqb_zero_spec x : PrimFloat.eqb x (Binary64.of_int 0) = sf_zero (SF x).
Proof.
  rewrite FloatAxioms.eqb_spec, SF_zero.
  by destruct (SF x) as [[]|[]| |[] m e].
Qed.


Lemma SF_bounded x s m e :
  SF x = S754_finite s m e → bounded prec emax m e = true.
Proof.
  intros H. pose proof (FloatAxioms.Prim2SF_valid x) as Hv.
  by rewrite H in Hv.
Qed.

Lemma SF_digits x s m e : SF x = S754_finite s m e → Zdigits2 (Zpos m) ≤ 53.
Proof. intros H%SF_bounded. apply bounded_facts in H. lia. Qed.

Lemma sf_plus_finite s :
  sf_finite s = true → sf_plus_or_nan s = true → sf_plus s = true.
Proof. by destruct s as [[]|[]| |[] m e]. Qed.

(** The conversion of an int of the 64-bit range. *)
Lemma SF_of_int_pos n :
  0 < n < 2 ^ 64 →
  sf_posfin (SF (Binary64.of_int n)) = true
  ∧ sf_mag (SF (Binary64.of_int n)) ≤ 65.
Proof.
  intros Hn. destruct n as [|p|p]; try lia.
  assert (Zdigits2 (Zpos p) ≤ 64) as Hd by (apply Zdigits2_le_iff; lia).
  pose proof (Zdigits2_pos (Zpos p) ltac:(done)) as Hd0.
  unfold Binary64.of_int, binary_normalize.
  destruct (binary_round_normal false p 0) as (m & e & -> & Hb & Hmag);
    [lia|lia|].
  rewrite FloatAxioms.Prim2SF_SF2Prim by done. unfold sf_mag. split; [done|lia].
Qed.

Lemma SF_of_int_neg n :
  - 2 ^ 63 ≤ n < 0 → ∃ m e, SF (Binary64.of_int n) = S754_finite true m e.
Proof.
  intros Hn. destruct n as [|p|p]; try lia.
  assert (Zdigits2 (Zpos p) ≤ 64) as Hd by (apply Zdigits2_le_iff; lia).
  pose proof (Zdigits2_pos (Zpos p) ltac:(done)) as Hd0.
  unfold Binary64.of_int, binary_normalize.
  destruct (binary_round_normal true p 0) as (m & e & -> & Hb & Hmag);
    [lia|lia|].
  rewrite FloatAxioms.Prim2SF_SF2Prim by done. by exists m, e.
Qed.

Lemma of_int_nonzero n :
  int64_range n = true → n ≠ 0 →
  PrimFloat.eqb (Binary64.of_int n) (Binary64.of_int 0) = false.
Proof.
  unfold int64_range. intros [H1%Z.leb_le H2%Z.ltb_lt]%andb_true_iff Hn.
  rewrite eqb_zero_spec. destruct (Z.lt_ge_cases 0 n) as [Hpos|Hneg].
  - destruct (SF_of_int_pos n) as [H _]; [lia|].
    by destruct (SF (Binary64.of_int n)) as [?|?| |[] ? ?].
  - by destruct (SF_of_int_neg n) as (m & e & ->); [lia|].
Qed.

(** The square root of a positive finite number is one, between [2^-537]
    and [2^513]. *)
Lemma sqrt_posfin x :
  sf_posfin (SF x) = true →
  sf_posfin (SF (PrimFloat.sqrt x)) = true
  ∧ -536 ≤ sf_mag (SF (PrimFloat.sqrt x)) ≤ 513
  ∧ 2 * sf_mag (SF (PrimFloat.sqrt x)) ≤ sf_mag (SF x) + 3.
Proof.
  intros Hx. rewrite FloatAxioms.sqrt_spec.
  destruct (SF x) as [?|?| |[] m e] eqn:E; try done.
  pose proof (SF_bounded x _ _ _ E) as Hb.
  pose proof (bounded_mag m e Hb) as HM.
  destruct (SFsqrt_posfin m e Hb) as (m' & e' & Hs & Hmag).
  unfold FloatAxioms.SF64sqrt. rewrite Hs. unfold sf_mag.
  split; [done|]. Z.div_mod_to_equations. lia.
Qed.

(** The square root of a number whose sign bit is clear. *)
Lemma sqrt_plus x : sf_plus (SF x) = true → sf_plus (SF (PrimFloat.sqrt x)) = true.
Proof. intros Hx. rewrite FloatAxioms.sqrt_spec. by apply SFsqrt_plus. Qed.


Lemma sqrt_plus_finite y :
  sf_finite (SF y) = true → sf_plus (SF y) = true →
  sf_finite (SF (PrimFloat.sqrt y)) = true
  ∧ sf_plus (SF (PrimFloat.sqrt y)) = true
  ∧ (sf_posfin (SF y) = true → sf_posfin (SF (PrimFloat.sqrt y)) = true
       ∧ 2 * sf_mag (SF (PrimFloat.sqrt y)) ≤ sf_mag (SF y) + 3).
Proof.
  intros Hf Hp. split; [|split; [by apply sqrt_plus|]].
  - destruct (SF y) as [[]|?| |[] m e] eqn:E; try done.
    + by rewrite FloatAxioms.sqrt_spec, E.
    + destruct (sqrt_posfin y) as (H & _); [by rewrite E|].
      by destruct (SF (PrimFloat.sqrt y)) as [?|?| |[] ? ?].
  - intros H. by destruct (sqrt_posfin y H) as (? & ? & ?).
Qed.

(** The thresholds of the indicator. *)
Lemma SF_threshold_low : ∃ m, SF (Binary64.dec 1 1) = S754_finite false m (-56).
Proof. eexists. reflexivity. Qed.

Lemma SF_threshold_high : ∃ m, SF (Binary64.dec 4 1) = S754_finite false m (-54).
Proof. eexists. reflexivity. Qed.


(** In the band of the indicator the square root of the square is the
    absolute value. *)
Lemma sqrt_sqr_band (e : PrimFloat.float → PrimFloat.float) d :
  indicator (A := Binary64.binary64 e) (PrimFloat.mul d d) ≠ 0 →
  PrimFloat.sqrt (PrimFloat.mul d d) = PrimFloat.abs d.
Proof.
  unfold indicator, np_where.
  change (f_dec (A := Binary64.binary64 e) 1 1) with (Binary64.dec 1 1).
  change (f_dec (A := Binary64.binary64 e) 4 1) with (Binary64.dec 4 1).
  cbn [f_ltb Binary64.binary64].
  destruct (PrimFloat.ltb (Binary64.dec 1 1) (PrimFloat.mul d d)) eqn:H1; [|done].
  destruct (PrimFloat.ltb (PrimFloat.mul d d) (Binary64.dec 4 1)) eqn:H2; [|done].
  intros _. rewrite FloatAxioms.ltb_spec in H1, H2.
  destruct SF_threshold_low as (m1 & E1).
  destruct SF_threshold_high as (m4 & E4). rewrite E1 in H1. rewrite E4 in H2.
  destruct (SFltb_between _ _ _ _ _ H1 H2) as (mx & ex & E & He).
  apply FloatAxioms.Prim2SF_inj.
  rewrite FloatAxioms.sqrt_spec, FloatAxioms.abs_spec.
  rewrite FloatAxioms.mul_spec in E |- *. unfold FloatAxioms.SF64mul in E |- *.
  destruct (SF d) as [?|?| |s m e'] eqn:Ed; try done.
  pose proof (SF_bounded _ _ _ _ Ed) as Hb.
  destruct (SFmul_self_normal s m e' false mx ex Hb E) as [Hd He']; [lia|].
  destruct (SFmul_self_round s m e' Hd He') as (m2 & n & Hn & -> & Hm2 & Hhalf & HP).
  unfold FloatAxioms.SF64sqrt. by apply SFsqrt_of_square.
Qed.

(** The two forms of the value agree unless the square overflows. *)
Lemma profile_spec_agree (e : PrimFloat.float → PrimFloat.float) x t :
  b64_overflow x t = false →
  profile_value (A := Binary64.binary64 e) x t
  = spec_value (A := Binary64.binary64 e) PrimFloat.abs x t.
Proof.
  unfold b64_overflow, b64_square, profile_value, spec_value.
  cbn [f_sqrt f_sqr f_sub f_mul f_div f_of_int Binary64.binary64].
  set (d := PrimFloat.sub (PrimFloat.sqrt x) t). intros Hov.
  destruct (Z.eq_dec (indicator (A := Binary64.binary64 e) (PrimFloat.mul d d)) 0)
    as [->|Hk]; [|by rewrite (sqrt_sqr_band e d Hk)].
  apply FloatAxioms.Prim2SF_inj.
  rewrite !FloatAxioms.mul_spec, FloatAxioms.div_spec, SF_zero.
  rewrite FloatAxioms.abs_spec.
  rewrite !finite_spec in Hov.
  destruct (SF d) as [sd|sd| |sd md ed] eqn:Ed.
  - rewrite (FloatAxioms.sqrt_spec (PrimFloat.mul d d)), FloatAxioms.mul_spec, Ed.
    by destruct sd.
  - rewrite (FloatAxioms.sqrt_spec (PrimFloat.mul d d)), FloatAxioms.mul_spec, Ed.
    by destruct sd.
  - by rewrite (FloatAxioms.sqrt_spec (PrimFloat.mul d d)), FloatAxioms.mul_spec, Ed.
  - simpl in Hov. apply negb_false_iff in Hov.
    assert (sf_plus (SF (PrimFloat.mul d d)) = true) as Hp.
    { apply sf_plus_finite; [done|].
      rewrite FloatAxioms.mul_spec. apply SFmul_self_plus. }
    destruct (sqrt_plus_finite _ Hov Hp) as (Hrf & Hrp & _).
    destruct (SF (PrimFloat.sqrt x)) as [[]|[]| |[] ms es];
      by destruct (SF (PrimFloat.sqrt (PrimFloat.mul d d))) as [[]|[]| |[] mr er].
Qed.




(** At a negative coordinate the value is a NaN. *)
Lemma profile_value_negative (e : PrimFloat.float → PrimFloat.float) x t :
  PrimFloat.ltb x (Binary64.of_int 0) = true →
  PrimFloat.eqb x (Binary64.of_int 0) = false
  ∧ PrimFloat.is_nan (profile_value (A := Binary64.binary64 e) x t) = true.
Proof.
  rewrite FloatAxioms.ltb_spec, eqb_zero_spec, is_nan_spec, SF_zero. intros Hx.
  assert (SF (PrimFloat.sqrt x) = S754_nan) as Hs.
  { rewrite FloatAxioms.sqrt_spec. by destruct (SF x) as [[]|[]| |[] ? ?]. }
  split; [by destruct (SF x) as [[]|[]| |[] ? ?]|].
  unfold profile_value.
  cbn [f_sqrt f_sqr f_sub f_mul f_div f_of_int Binary64.binary64].
  rewrite FloatAxioms.mul_spec, FloatAxioms.div_spec, Hs.
  by destruct (SF (Binary64.of_int _)) as [[]|[]| |[] ? ?].
Qed.

(** *** Explicit bounds under which the square does not overflow *)

Lemma SF_pow2_500 : ∃ m, SF (Binary64.of_int (2 ^ 500)) = S754_finite false m 448.
Proof. eexists. reflexivity. Qed.


Lemma b64_below_500 t : b64_below 500 t = true → sf_below 501 (SF t).
Proof.
  unfold b64_below. rewrite FloatAxioms.ltb_spec, FloatAxioms.abs_spec.
  destruct SF_pow2_500 as [m ->]. intros [Hf He]%SFltb_abs_below.
  destruct (SF t) as [?|?| |s mt et] eqn:E; try done.
  pose proof (SF_digits t _ _ _ E). specialize (He s mt et eq_refl).
  unfold sf_below. lia.
Qed.


Lemma mul_self_finite d :
  sf_below 504 (SF d) → Binary64.finite (PrimFloat.mul d d) = true.
Proof.
  intros Hd. rewrite finite_spec, FloatAxioms.mul_spec.
  destruct (SF d) as [?|?| |sd md ed] eqn:Ed; try done.
  pose proof (SF_bounded _ _ _ _ Ed) as Hb. apply bounded_facts in Hb.
  unfold sf_below in Hd. unfold FloatAxioms.SF64mul.
  apply SFmul_finite; lia.
Qed.


(** A Python float below [2^500] in absolute value: [(x - x0) ** 2] does
    not overflow. *)
Lemma SF_x0 : ∃ m e, SF (Binary64.dec 75 2) = S754_finite false m e
                     ∧ Zdigits2 (Zpos m) + e = 0.
Proof. eexists _, _. split; reflexivity. Qed.

Lemma sub_x0_finite x :
  b64_below 500 x = true →
  Binary64.finite
    (PrimFloat.mul (PrimFloat.sub x (Binary64.dec 75 2))
                   (PrimFloat.sub x (Binary64.dec 75 2))) = true.
Proof.
  intros Hx%b64_below_500. apply mul_self_finite.
  rewrite FloatAxioms.sub_spec. destruct SF_x0 as (m0 & e0 & -> & Hm0).
  destruct (SF x) as [?|?| |sx mx ex]; try done.
  - unfold FloatAxioms.SF64sub, SFsub, sf_below. lia.
  - unfold sf_below in Hx.
    apply (SFsub_small sx mx ex false m0 e0 502); lia.
Qed.

(** *** Coordinates *)

Section Coordinates.
Variable e : PrimFloat.float → PrimFloat.float.
Local Abbreviation B := (Binary64.binary64 e).









Lemma qinit_py_small x σ :
  b64_below 500 x = true →
  qinit (A := B) PyFloat x σ = (Ok (indicator (A := B) x), σ).
Proof.
  intros Hx. rewrite qinit_py.
  change (f_finite (f_sqr (f_sub x (f_dec (A := B) 75 2))))
    with (Binary64.finite
            (PrimFloat.mul (PrimFloat.sub x (Binary64.dec 75 2))
                           (PrimFloat.sub x (Binary64.dec 75 2)))).
  by rewrite sub_x0_finite, andb_false_r.
Qed.




End Coordinates.

End Binary64Prim.
(** * The claims *)

(** C1 (as stated, in binary64): at [x = 1.0], [t = 2^700] the coordinate is
    not zero, [qtrue] returns NaN, and the stated value
    [qinit((sqrt(x)-t)^2) / sqrt(x) * |sqrt(x)-t|] is [0.0]. *)
Lemma qtrue_abs_form_overflow :
  PrimFloat.eqb (Binary64.of_int 1) (Binary64.of_int 0) = false ∧
  ∀ e σ,
    qtrue (A := Binary64.binary64 e)
      (VAtom (AFloat (Binary64.of_int 1))) (Binary64.of_int (2 ^ 700)) σ
    ≠ (Ok (VAtom (AFloat
         (spec_value (A := Binary64.binary64 e) PrimFloat.abs
            (Binary64.of_int 1) (Binary64.of_int (2 ^ 700))))), σ).
Proof.
  split; [reflexivity|]. intros e σ.
  rewrite qtrue_overflow, spec_value_overflow. intros [=].
Qed.

(** C1 (amended): for every coordinate that is not zero (a float, or an
    int of the 64-bit range of [np.sqrt]; a [bool] is not modelled) and
    every time [t], [qtrue] returns [qinit(xm) / sqrt(x) * sqrt(xm)] with
    [xm = (sqrt(x) - t)^2], for a scalar argument and at every such position
    of an array or list argument, whatever the arithmetic, binary64
    included.  In exact real arithmetic [sqrt(xm)] is [|sqrt(x) - t|], so
    that the value is [qinit((sqrt(x)-t)^2) / sqrt(x) * |sqrt(x) - t|].  In
    binary64 the two forms agree for every [x] and [t] unless the square
    overflows, as it does at [x = 1.0], [t = 2^700]. *)
Theorem qtrue_away_from_zero :
  (∀ (F : Type) (A : Float64 F) (t : F) (σ : pystate F),
      (∀ a, sqrt_ok a = true → ne_zero a = true →
            qtrue (VAtom a) t σ
            = (Ok (VAtom (AFloat (profile_value (to_float a) t))), σ))
      ∧ (∀ l o, heap σ !! l = Some o → seq_obj o = true →
            Forall (λ a, sqrt_ok a = true) (items o) →
            ∃ q ys,
              qtrue (VRef l) t σ
              = (Ok (VRef q), set_heap (<[q := NdArray ys]> (heap σ)) σ)
              ∧ heap σ !! q = None
              ∧ ∀ i a, items o !! i = Some a → ne_zero a = true →
                       ys !! i = Some (profile_value (to_float a) t)))
  ∧ (∀ x t : xreal, profile_value x t = spec_value xabs x t)
  ∧ (∀ (e : PrimFloat.float → PrimFloat.float) (x t : PrimFloat.float),
       b64_overflow x t = false →
       profile_value (A := Binary64.binary64 e) x t
       = spec_value (A := Binary64.binary64 e) PrimFloat.abs x t)
  ∧ b64_overflow (Binary64.of_int 1) (Binary64.of_int (2 ^ 700)) = true.
Proof.
  split; [|split; [apply profile_value_spec|split; [|reflexivity]]].
  - intros F A t σ. split.
    + intros a Hn Hz. by apply qtrue_atom_nonzero.
    + intros l o Hl Hseq Hall.
      exists (fresh (dom (heap σ))), (cell t <$> items o).
      split; [by apply qtrue_ref_numbers|]. split; [apply fresh_loc_None|].
      intros i a Hi Hz. rewrite list_lookup_fmap, Hi. simpl.
      unfold cell. by rewrite Hz.
  - intros e x t. apply profile_spec_agree.
Qed.

(** A run of C1 in exact arithmetic: [qtrue(4.0, 1.0)]. *)
Lemma qtrue_away_from_zero_witness :
  qtrue (VAtom (AFloat (Fin 4))) (Fin 1) (state_of ∅)
  = (Ok (VAtom (AFloat (spec_value xabs (Fin 4) (Fin 1)))), state_of ∅).
Proof.
  rewrite <- (proj1 (proj2 qtrue_away_from_zero)).
  apply (proj1 (proj1 qtrue_away_from_zero xreal exact (Fin 1) (state_of ∅))).
  - reflexivity.
  - simpl. unfold Reqb. destruct (Req_dec_T 4 0) as [H|H]; [|done].
    exfalso. revert H. apply not_0_IZR. done.
Defined.

(** C2 (as stated, in binary64): the Python float [1e200] is outside
    [(0.1, 0.4)], and [qinit(1e200)] returns nothing: the square
    [(x - x0) ** 2] inside the Gaussian term raises [OverflowError]. *)
Lemma qinit_python_float_overflow :
  Binary64.finite (Binary64.of_int (10 ^ 200)) = true
  ∧ PrimFloat.ltb (Binary64.dec 4 1) (Binary64.of_int (10 ^ 200)) = true
  ∧ ∀ e σ,
      qinit (A := Binary64.binary64 e) PyFloat (Binary64.of_int (10 ^ 200)) σ
      = (Raise OverflowError, σ).
Proof.
  split; [reflexivity|]. split; [reflexivity|]. intros e σ.
  rewrite qinit_py.
  match goal with
  | |- (if ?c then _ else _) = _ =>
      assert (c = true) as -> by (vm_compute; reflexivity)
  end.
  reflexivity.
Qed.

(** C2 (amended): on a numpy [float64] (what [qtrue] passes) [qinit]
    returns 1 for [0.1 < x < 0.4], strictly, and 0 otherwise, the boundary
    values, the infinities and NaN included; on a Python [float] it returns
    the same unless [(x - x0) ** 2] overflows, where it raises
    [OverflowError], and it returns the indicator for every [x] below
    [2^500] in absolute value.  What [np.exp] computes has no effect. *)
Theorem qinit_indicator_open_interval :
  (∀ (F : Type) (A : Float64 F) (x : F) (σ : pystate F),
      qinit NpFloat64 x σ = (Ok (indicator x), σ)
      ∧ qinit PyFloat x σ
        = (if f_finite (f_sub x (f_dec 75 2))
              && negb (f_finite (f_sqr (f_sub x (f_dec 75 2))))
           then (Raise OverflowError, σ)
           else (Ok (indicator x), σ))
      ∧ indicator x
        = (if f_ltb (f_dec 1 1) x && f_ltb x (f_dec 4 1) then 1%Z else 0%Z)
      ∧ ∀ (e : F → F) (c : float_class),
          qinit (A := with_exp e A) c x σ = qinit (A := A) c x σ)
  ∧ (∀ (c : float_class) (x : R) (σ : pystate xreal),
       ((1 / 10 < x < 4 / 10)%R → qinit c (Fin x) σ = (Ok 1%Z, σ))
       ∧ ((x <= 1 / 10 ∨ 4 / 10 <= x)%R → qinit c (Fin x) σ = (Ok 0%Z, σ)))
  ∧ (indicator (A := exact) PInf = 0%Z
     ∧ indicator (A := exact) NInf = 0%Z
     ∧ indicator (A := exact) NaN = 0%Z)
  ∧ (∀ (e : PrimFloat.float → PrimFloat.float),
       indicator (A := Binary64.binary64 e) (Binary64.dec 1 1) = 0%Z
       ∧ indicator (A := Binary64.binary64 e) (Binary64.dec 4 1) = 0%Z
       ∧ indicator (A := Binary64.binary64 e) (Binary64.dec 25 2) = 1%Z
       ∧ indicator (A := Binary64.binary64 e) PrimFloat.infinity = 0%Z
       ∧ indicator (A := Binary64.binary64 e) PrimFloat.nan = 0%Z)
  ∧ (∀ (e : PrimFloat.float → PrimFloat.float) (x : PrimFloat.float)
       (σ : pystate PrimFloat.float),
       b64_below 500 x = true →
       qinit (A := Binary64.binary64 e) PyFloat x σ
       = (Ok (indicator (A := Binary64.binary64 e) x), σ)).
Proof.
  split; [|split; [|split; [|split]]].
  - intros F A x σ. split; [apply qinit_np|]. split; [apply qinit_py|].
    split; [apply indicator_eq|]. intros e c. by destruct c.
  - intros c x σ.
    assert (qinit (A := exact) c (Fin x) σ = (Ok (indicator (Fin x)), σ)) as ->
      by (destruct c; [rewrite qinit_py, f_dec_exact; reflexivity|apply qinit_np]).
    rewrite qinit_exact. split.
    + intros [H1 H2]. by rewrite !Rltb_true.
    + intros [H|H].
      * by rewrite (Rltb_false (1 / 10) x) by lra.
      * rewrite (Rltb_false x (4 / 10)) by lra. by rewrite andb_false_r.
  - repeat split; by rewrite indicator_eq, !f_dec_exact.
  - intros e. repeat split; reflexivity.
  - intros e x σ. apply qinit_py_small.
Qed.

(** A run of C2: the Python float [1.0]. *)
Lemma qinit_indicator_open_interval_witness :
  qinit (A := Binary64.binary64 (λ x, x)) PyFloat (Binary64.of_int 1)
    (state64 ∅)
  = (Ok (indicator (A := Binary64.binary64 (λ x, x)) (Binary64.of_int 1)),
     state64 ∅).
Proof.
  apply (proj2 (proj2 (proj2 (proj2 qinit_indicator_open_interval)))).
  reflexivity.
Defined.



(** C4 (as stated): the int [2^64] is a scalar, and [qtrue] returns no
    scalar for it: [np.sqrt] has no conversion for an int outside 64 bits
    and raises [TypeError]. *)
Lemma qtrue_big_int_type_error :
  isinstance_float_int (VAtom (AInt (2 ^ 64)) : value PrimFloat.float) = true
  ∧ ∀ e t σ,
      qtrue (A := Binary64.binary64 e) (VAtom (AInt (2 ^ 64))) t σ
      = (Raise TypeError, σ).
Proof. split; [reflexivity|]. intros e t σ. by apply qtrue_atom_big. Qed.

(** C4 (amended): [qtrue] preserves the shape of its input where [np.sqrt]
    accepts it: a float or an int of the 64-bit range gives a scalar, an
    ndarray or list of [n] such numbers gives a new ndarray of length [n];
    an int outside the range gives [TypeError]. *)
Theorem qtrue_shape (F : Type) (A : Float64 F) (t : F) (σ : pystate F) :
  (∀ a, sqrt_ok a = true →
        ∃ b, qtrue (VAtom a) t σ = (Ok (VAtom b), σ) ∧ is_number b = true)
  ∧ (∀ l o, heap σ !! l = Some o → seq_obj o = true →
        Forall (λ a, sqrt_ok a = true) (items o) →
        ∃ q ys,
          qtrue (VRef l) t σ
          = (Ok (VRef q), set_heap (<[q := NdArray ys]> (heap σ)) σ)
          ∧ heap σ !! q = None
          ∧ length ys = length (items o))
  ∧ (∀ xs : list F, length (items (NdArray xs)) = length xs)
  ∧ (∀ n, int64_range n = false →
          qtrue (VAtom (AInt n)) t σ = (Raise TypeError, σ)).
Proof.
  split; [|split; [|split]].
  - intros a Hn. rewrite qtrue_atom_cell by done.
    eexists. split; [done|]. by destruct (ne_zero a).
  - intros l o Hl Hseq Hall.
    exists (fresh (dom (heap σ))), (cell t <$> items o).
    split; [by apply qtrue_ref_numbers|]. split; [apply fresh_loc_None|].
    apply length_fmap.
  - intros xs. apply length_fmap.
  - intros n Hn. apply qtrue_atom_big; [done| |done].
    simpl. destruct (Z.eqb_spec n 0) as [->|]; done.
Qed.

(** A run of C4: the list [[0.0, 0.25, 3]] gives an array of length 3. *)
Lemma qtrue_shape_witness :
  ∃ q ys,
    qtrue (VRef 0) (Fin 0) (state_of sample_heap)
    = (Ok (VRef q), set_heap (<[q := NdArray ys]> sample_heap) (state_of sample_heap))
    ∧ sample_heap !! q = None
    ∧ length ys = 3.
Proof.
  apply (proj1 (proj2 (qtrue_shape xreal exact (Fin 0) (state_of sample_heap))) 0
           (PyList [AFloat (Fin 0); AFloat (Fin (1 / 4)); AInt 3])).
  - reflexivity.
  - reflexivity.
  - repeat constructor.
Defined.

(** ** Scenarios in exact arithmetic *)

Section ExactScenarios.
Local Open Scope R_scope.

Lemma sqrt_quarter : sqrt (1 / 4) = 1 / 2.
Proof.
  replace (1 / 4) with ((1 / 2) * (1 / 2)) by lra. apply sqrt_square. lra.
Qed.

Lemma profile_value_quarter : profile_value (Fin (1 / 4)) (Fin 0) = Fin 1.
Proof.
  rewrite profile_value_pos by lra. rewrite sqrt_quarter, qinit_exact.
  rewrite !Rltb_true by lra. simpl.
  rewrite Rabs_pos_eq by lra. f_equal. lra.
Qed.

Lemma ne_zero_quarter : ne_zero (AFloat (Fin (1 / 4))) = true.
Proof. simpl. by rewrite Reqb_false by lra. Qed.

Lemma ne_zero_zero : ne_zero (AFloat (Fin 0)) = false.
Proof. simpl. by rewrite Reqb_true. Qed.
End ExactScenarios.

(** C5: the scenarios [qtrue([0.0, 0.25], 0.0) == [0.0, 1.0]],
    [qtrue(0.25, 0.0) == 1.0] and [qtrue(0.0, 5.0) == 0], in binary64 and in
    exact arithmetic. *)
Theorem qtrue_scenarios :
  (∀ (e : PrimFloat.float → PrimFloat.float) (σ : pystate PrimFloat.float),
      (∀ l, heap σ !! l = Some (PyList [AFloat (Binary64.dec 0 1); AFloat (Binary64.dec 25 2)]) →
            ∃ q, qtrue (A := Binary64.binary64 e) (VRef l) (Binary64.dec 0 1) σ
                 = (Ok (VRef q),
                    set_heap (<[q := NdArray [Binary64.dec 0 1; Binary64.dec 10 1]]> (heap σ)) σ)
                 ∧ heap σ !! q = None)
      ∧ qtrue (A := Binary64.binary64 e) (VAtom (AFloat (Binary64.dec 25 2))) (Binary64.dec 0 1) σ
        = (Ok (VAtom (AFloat (Binary64.dec 10 1))), σ)
      ∧ qtrue (A := Binary64.binary64 e) (VAtom (AFloat (Binary64.dec 0 1))) (Binary64.dec 50 1) σ
        = (Ok (VAtom (AInt 0)), σ))
  ∧ (∀ σ : pystate xreal,
      (∀ l, heap σ !! l = Some (PyList [AFloat (Fin 0); AFloat (Fin (1 / 4))]) →
            ∃ q, qtrue (VRef l) (Fin 0) σ
                 = (Ok (VRef q), set_heap (<[q := NdArray [Fin 0; Fin 1]]> (heap σ)) σ)
                 ∧ heap σ !! q = None)
      ∧ qtrue (VAtom (AFloat (Fin (1 / 4)))) (Fin 0) σ = (Ok (VAtom (AFloat (Fin 1))), σ)
      ∧ qtrue (VAtom (AFloat (Fin 0))) (Fin 5) σ = (Ok (VAtom (AInt 0)), σ)).
Proof.
  split.
  - intros e σ. split; [|split].
    + intros l Hl. exists (fresh (dom (heap σ))). split; [|apply fresh_loc_None].
      rewrite (qtrue_ref_numbers l _ _ _ Hl); [done|done|]. by repeat constructor.
    + by rewrite qtrue_atom_nonzero.
    + by rewrite qtrue_atom_zero.
  - intros σ. split; [|split].
    + intros l Hl. exists (fresh (dom (heap σ))). split; [|apply fresh_loc_None].
      rewrite (qtrue_ref_numbers l _ _ _ Hl); [|done|by repeat constructor].
      cbn [items fmap list_fmap]. unfold cell.
      rewrite ne_zero_zero, ne_zero_quarter. cbn [to_float].
      by rewrite profile_value_quarter.
    + rewrite qtrue_atom_nonzero; [|done|apply ne_zero_quarter].
      cbn [to_float]. by rewrite profile_value_quarter.
    + rewrite qtrue_atom_zero; [done|done|apply ne_zero_zero].
Qed.

(** C6 (as stated): called on the tuple [(0.0, 0.25)], which is neither a
    scalar nor an array or list, [qtrue] raises [UnboundLocalError] at
    [return q], not a type error. *)
Lemma qtrue_tuple_unbound_local :
  qtrue (VRef 1) (Fin 0) (state_of sample_heap)
  = (Raise UnboundLocalError, state_of sample_heap)
  ∧ (qtrue (VRef 1) (Fin 0) (state_of sample_heap)).1 ≠ Raise TypeError.
Proof.
  assert (qtrue (VRef 1) (Fin 0) (state_of sample_heap)
          = (Raise UnboundLocalError, state_of sample_heap)) as H
    by (by apply qtrue_ref_other).
  split; [done|]. by rewrite H.
Qed.

(** C6 (amended): an argument that is neither a float or int nor an ndarray
    or list makes [qtrue] raise [UnboundLocalError] at [return q], the state
    untouched and no result returned; an ndarray or list holding [None] or a
    string makes it raise the [TypeError] of [np.sqrt]. *)
Theorem qtrue_unsupported (F : Type) (A : Float64 F) (t : F) (σ : pystate F) :
  (∀ a, is_number a = false →
        qtrue (VAtom a) t σ = (Raise UnboundLocalError, σ))
  ∧ (∀ l, (heap σ !! l = None ∨ ∃ its, heap σ !! l = Some (PyTuple its)) →
          qtrue (VRef l) t σ = (Raise UnboundLocalError, σ))
  ∧ (∀ l o i a, heap σ !! l = Some o → seq_obj o = true →
                items o !! i = Some a → is_number a = false →
                (qtrue (VRef l) t σ).1 = Raise TypeError).
Proof.
  split; [|split].
  - intros a Hn. by apply qtrue_atom_other.
  - intros l [Hl|[its Hl]]; apply qtrue_ref_other; by rewrite Hl.
  - intros l o i a Hl Hseq Hi Hn.
    destruct (numbers_or_first (items o)) as [Hall|(j & b & Hj & Hb & Hlt)].
    + rewrite Forall_forall in Hall.
      assert (sqrt_ok a = true) as Ha
        by (apply Hall; by eapply list_elem_of_lookup_2).
      apply sqrt_ok_number in Ha. by rewrite Ha in Hn.
    + by destruct (qtrue_ref_not_number l o t σ j b) as [qs ->].
Qed.

(** A run of C6: the string ["x"] as argument. *)
Lemma qtrue_unsupported_witness :
  qtrue (VAtom (AStr "x")) (Fin 0) (state_of sample_heap)
  = (Raise UnboundLocalError, state_of sample_heap).
Proof.
  apply (proj1 (qtrue_unsupported xreal exact (Fin 0) (state_of sample_heap))).
  reflexivity.
Defined.

(** ** Finite and non-negative values in exact arithmetic *)

Section ExactRange.
Local Open Scope R_scope.




End ExactRange.




(** C8: [qtrue] is deterministic, pure and stateless.  A call leaves
    [probdata] and every object that existed before it, its input array
    among them, as they were (the only effect is the allocation of the
    result); what it returns depends on the state through the contents of
    its argument only, so not on [probdata], on other objects or on what
    [np.empty] found in memory; and a second call with the same [(x, t)]
    returns the same. *)
Theorem qtrue_pure (F : Type) (A : Float64 F) (x : value F) (t : F) :
  (∀ σ, same_frame σ (qtrue x t σ).2)
  ∧ (∀ σ1 σ2, content σ1 x = content σ2 x →
              result_content (qtrue x t σ1) = result_content (qtrue x t σ2))
  ∧ (∀ σ, result_content (qtrue x t (qtrue x t σ).2)
          = result_content (qtrue x t σ)).
Proof.
  split; [|split].
  - intros σ. apply qtrue_same_frame.
  - intros σ1 σ2. apply qtrue_content.
  - intros σ. apply qtrue_content.
    destruct x as [a|l]; simpl; [done|]. f_equal.
    destruct (heap σ !! l) as [o|] eqn:Hl.
    + rewrite <- Hl. apply (qtrue_same_frame (VRef l) t σ).
      apply elem_of_dom. by rewrite Hl.
    + rewrite qtrue_ref_other by (by rewrite Hl). done.
Qed.

(** A run of C8: two states that hold the same list at address 0 and differ
    in everything else. *)
Lemma qtrue_pure_witness :
  result_content (qtrue (VRef 0) (Fin 1) (state_of sample_heap))
  = result_content
      (qtrue (VRef 0) (Fin 1)
         {| heap := <[5 := NdArray [NaN]]> sample_heap;
            probdata := (Fin 2, Fin 3);
            uninit := λ _ _, PInf |}).
Proof.
  apply (proj1 (proj2 (qtrue_pure xreal exact (VRef 0) (Fin 1)))).
  reflexivity.
Defined.




(** C10 (as stated, in binary64): at [x = 64.0], [t = 7.683772233983162]
    the difference [sqrt(x) - t] squares to just above 0.1 and
    [qtrue(x, t)] is not zero, while [2*sqrt(x) - t] is rounded, the
    reflected difference squares to just below 0.1 and
    [qtrue(x, 2*sqrt(x) - t)] is [0.0]. *)
Lemma qtrue_reflection_binary64 :
  PrimFloat.ltb (Binary64.of_int 0) (Binary64.of_int 64) = true
  ∧ ∀ e σ,
      qtrue (A := Binary64.binary64 e)
        (VAtom (AFloat (Binary64.of_int 64))) (Binary64.dec 7683772233983162 15) σ
      ≠ qtrue (A := Binary64.binary64 e)
          (VAtom (AFloat (Binary64.of_int 64)))
          (PrimFloat.sub
             (PrimFloat.mul (Binary64.of_int 2) (PrimFloat.sqrt (Binary64.of_int 64)))
             (Binary64.dec 7683772233983162 15)) σ.
Proof.
  split; [reflexivity|]. intros e σ.
  rewrite !qtrue_atom_nonzero by reflexivity.
  intros H. apply ok_float_inj in H.
  apply (f_equal (PrimFloat.eqb (Binary64.of_int 0))) in H.
  vm_compute in H. discriminate H.
Qed.

(** C10 (amended): in exact real arithmetic, for every scalar [x > 0] and
    every real time [t], [qtrue(x, t)] and [qtrue(x, 2*sqrt(x) - t)] are
    equal. *)
Theorem qtrue_reflection_exact (x t : R) (σ : pystate xreal) :
  (0 < x)%R →
  qtrue (VAtom (AFloat (Fin x))) (f_sub (f_mul (f_of_int 2) (f_sqrt (Fin x))) (Fin t)) σ
  = qtrue (VAtom (AFloat (Fin x))) (Fin t) σ.
Proof.
  intros Hx.
  assert (ne_zero (AFloat (Fin x)) = true) as Hz
    by (simpl; rewrite Reqb_false by lra; done).
  rewrite !qtrue_atom_nonzero by done. cbn [to_float].
  by rewrite profile_value_reflect.
Qed.

(** A run of C10: [x = 4.0], [t = 1.0]. *)
Lemma qtrue_reflection_exact_witness :
  qtrue (VAtom (AFloat (Fin 4))) (f_sub (f_mul (f_of_int 2) (f_sqrt (Fin 4))) (Fin 1))
    (state_of ∅)
  = qtrue (VAtom (AFloat (Fin 4))) (Fin 1) (state_of ∅).
Proof. apply qtrue_reflection_exact. lra. Defined.

(** * Further properties of [qtrue] and [qinit] *)

(** X1: the array branch is the scalar branch applied item by item: the
    entry stored for each item of an ndarray or list of numbers that
    [np.sqrt] accepts is, as a float, what [qtrue] returns for that item
    alone (the scalar branch returns the int [0] where the loop stores
    [0.]). *)
Theorem qtrue_array_is_scalar_map (F : Type) (A : Float64 F) (t : F)
        (σ : pystate F) (l : loc) (o : obj F) :
  heap σ !! l = Some o → seq_obj o = true →
  Forall (λ a, sqrt_ok a = true) (items o) →
  ∃ q ys,
    qtrue (VRef l) t σ = (Ok (VRef q), set_heap (<[q := NdArray ys]> (heap σ)) σ)
    ∧ length ys = length (items o)
    ∧ ∀ i a, items o !! i = Some a →
        ∃ b, qtrue (VAtom a) t σ = (Ok (VAtom b), σ)
             ∧ ys !! i = Some (to_float b).
Proof.
  intros Hl Hseq Hall.
  exists (fresh (dom (heap σ))), (cell t <$> items o).
  split; [by apply qtrue_ref_numbers|]. split; [apply length_fmap|].
  intros i a Hi.
  assert (sqrt_ok a = true) as Hn.
  { rewrite Forall_forall in Hall. apply Hall. by eapply list_elem_of_lookup_2. }
  rewrite list_lookup_fmap, Hi. simpl. unfold cell.
  destruct (ne_zero a) eqn:Hz.
  - eexists. split; [by apply qtrue_atom_nonzero|done].
  - eexists. split; [apply qtrue_atom_zero; [by apply sqrt_ok_number|done]|done].
Qed.

(** A run of X1 on the list [[0.0, 0.25, 3]]. *)
Lemma qtrue_array_is_scalar_map_witness :
  ∃ q ys,
    qtrue (VRef 0) (Fin 1) (state_of sample_heap)
    = (Ok (VRef q),
       set_heap (<[q := NdArray ys]> (heap (state_of sample_heap))) (state_of sample_heap))
    ∧ length ys = length (items (PyList [AFloat (Fin 0); AFloat (Fin (1 / 4)); AInt 3]))
    ∧ ∀ i a, items (PyList [AFloat (Fin 0); AFloat (Fin (1 / 4)); AInt 3]) !! i = Some a →
        ∃ b, qtrue (VAtom a) (Fin 1) (state_of sample_heap)
             = (Ok (VAtom b), state_of sample_heap)
             ∧ ys !! i = Some (to_float b).
Proof.
  apply (qtrue_array_is_scalar_map xreal exact (Fin 1) (state_of sample_heap) 0
           (PyList [AFloat (Fin 0); AFloat (Fin (1 / 4)); AInt 3])).
  - reflexivity.
  - reflexivity.
  - repeat (apply Forall_cons; split; [reflexivity|]). by apply Forall_nil.
Defined.

(** X2: an empty ndarray or list gives a new empty ndarray, without an
    exception, whatever [t]. *)
Theorem qtrue_empty (F : Type) (A : Float64 F) (t : F) (σ : pystate F)
        (l : loc) (o : obj F) :
  heap σ !! l = Some o → seq_obj o = true → items o = [] →
  ∃ q, qtrue (VRef l) t σ
       = (Ok (VRef q), set_heap (<[q := NdArray []]> (heap σ)) σ)
       ∧ heap σ !! q = None.
Proof.
  intros Hl Hseq Hnil. exists (fresh (dom (heap σ))).
  split; [|apply fresh_loc_None].
  rewrite (qtrue_ref_numbers l o) by (rewrite ?Hnil; done). by rewrite Hnil.
Qed.

(** A run of X2: the empty list. *)
Lemma qtrue_empty_witness :
  ∃ q, qtrue (VRef 0) (Fin 1) (state_of {[ 0 := PyList [] ]})
       = (Ok (VRef q),
          set_heap (<[q := NdArray []]> (heap (state_of {[ 0 := PyList [] ]})))
            (state_of {[ 0 := PyList [] ]}))
       ∧ heap (state_of ({[ 0 := PyList [] ]} : gmap loc (obj xreal))) !! q = None.
Proof.
  apply (qtrue_empty xreal exact (Fin 1) (state_of {[ 0 := PyList [] ]}) 0 (PyList []));
    reflexivity.
Defined.

(** X3: an ndarray and a list that hold the same floats give result arrays
    with the same contents. *)
Theorem qtrue_list_as_ndarray (F : Type) (A : Float64 F) (t : F)
        (σ : pystate F) (l1 l2 : loc) (xs : list F) :
  heap σ !! l1 = Some (NdArray xs) →
  heap σ !! l2 = Some (PyList (AFloat <$> xs)) →
  result_content (qtrue (VRef l1) t σ) = result_content (qtrue (VRef l2) t σ).
Proof.
  intros H1 H2.
  assert (Forall (λ a : atom F, sqrt_ok a = true) (AFloat <$> xs)) as Hall
    by (apply Forall_fmap, Forall_true; done).
  rewrite (qtrue_ref_numbers l1 _ t σ H1), (qtrue_ref_numbers l2 _ t σ H2) by done.
  simpl. by rewrite !lookup_insert_eq.
Qed.

(** A run of X3. *)
Lemma qtrue_list_as_ndarray_witness :
  result_content
    (qtrue (VRef 0) (Fin 1)
       (state_of {[ 0 := NdArray [Fin 4]; 1 := PyList (AFloat <$> [Fin 4]) ]}))
  = result_content
      (qtrue (VRef 1) (Fin 1)
         (state_of {[ 0 := NdArray [Fin 4]; 1 := PyList (AFloat <$> [Fin 4]) ]})).
Proof.
  apply (qtrue_list_as_ndarray xreal exact (Fin 1) _ 0 1 [Fin 4]); reflexivity.
Defined.

(** ** In exact arithmetic *)

Section ExactShape.
Local Open Scope R_scope.

Lemma ne_zero_pos (x : R) : 0 < x → ne_zero (AFloat (Fin x)) = true.
Proof. intros. simpl. by rewrite Reqb_false by lra. Qed.

Lemma qtrue_pos (x t : R) (σ : pystate xreal) :
  0 < x →
  qtrue (VAtom (AFloat (Fin x))) (Fin t) σ
  = (Ok (VAtom (AFloat
       (Fin (IZR (indicator (Fin ((sqrt x - t) * (sqrt x - t)))) / sqrt x
             * Rabs (sqrt x - t))))), σ).
Proof.
  intros Hx. rewrite qtrue_atom_nonzero; [|done|by apply ne_zero_pos].
  cbn [to_float]. by rewrite profile_value_pos.
Qed.
End ExactShape.

(** X7: a negative coordinate raises nothing and gives NaN (exact
    arithmetic with the IEEE special values): [np.sqrt] of a negative
    number is NaN, and it propagates through the quotient and the product. *)
Theorem qtrue_negative_nan (x : R) (t : xreal) (σ : pystate xreal) :
  (x < 0)%R →
  qtrue (VAtom (AFloat (Fin x))) t σ = (Ok (VAtom (AFloat NaN)), σ).
Proof.
  intros Hx. rewrite qtrue_atom_nonzero; [|done|].
  - cbn [to_float]. unfold profile_value. simpl.
    by rewrite (Rltb_true x 0) by done.
  - simpl. by rewrite Reqb_false by lra.
Qed.

(** A run of X7: [qtrue(-1.0, 2.0)]. *)
Lemma qtrue_negative_nan_witness :
  qtrue (VAtom (AFloat (Fin (-1)))) (Fin 2) (state_of ∅)
  = (Ok (VAtom (AFloat NaN)), state_of ∅).
Proof. apply qtrue_negative_nan. lra. Defined.

(** X8: for [x > 0] and [0 <= t <= 2*sqrt(x)] the value lies in [[0, 1]]
    (exact arithmetic): the amplitude factor [|sqrt(x) - t| / sqrt(x)] is at
    most 1 there. *)
Theorem qtrue_at_most_one (x t : R) (σ : pystate xreal) :
  (0 < x)%R → (0 <= t <= 2 * sqrt x)%R →
  ∃ r, qtrue (VAtom (AFloat (Fin x))) (Fin t) σ = (Ok (VAtom (AFloat (Fin r))), σ)
       ∧ (0 <= r <= 1)%R.
Proof.
  intros Hx [Ht1 Ht2]. pose proof (sqrt_lt_R0 x Hx) as Hs.
  eexists. split; [by apply qtrue_pos|].
  assert (0 <= Rabs (sqrt x - t) / sqrt x <= 1)%R as [Ha Hb].
  { split.
    - apply Rmult_le_pos; [apply Rabs_pos|left; by apply Rinv_0_lt_compat].
    - apply (Rmult_le_reg_r (sqrt x)); [done|].
      replace (Rabs (sqrt x - t) / sqrt x * sqrt x)%R with (Rabs (sqrt x - t))
        by (field; lra).
      rewrite Rmult_1_l. apply Rabs_le. lra. }
  destruct (qinit_range (Fin ((sqrt x - t) * (sqrt x - t)))) as [-> | ->]; simpl.
  - replace (0 / sqrt x * Rabs (sqrt x - t))%R with 0%R by (field; lra). lra.
  - replace (1 / sqrt x * Rabs (sqrt x - t))%R with (Rabs (sqrt x - t) / sqrt x)%R
      by (field; lra).
    done.
Qed.

(** A run of X8: [x = 4], [t = 1]. *)
Lemma qtrue_at_most_one_witness :
  ∃ r, qtrue (VAtom (AFloat (Fin (2 * 2)))) (Fin 1) (state_of ∅)
       = (Ok (VAtom (AFloat (Fin r))), state_of ∅)
       ∧ (0 <= r <= 1)%R.
Proof.
  apply qtrue_at_most_one; [lra|]. rewrite sqrt_square by lra. lra.
Defined.

(** X10: an int coordinate of the 64-bit range (an [int] proper, not a
    [bool]) gives what the float of the same value gives: [qtrue(n, t)] and
    [qtrue(float(n), t)] coincide, the zero case included, in exact
    arithmetic and in binary64. *)
Theorem qtrue_int_as_float :
  (∀ (n : Z) (t : xreal) (σ : pystate xreal),
      int64_range n = true →
      qtrue (VAtom (AInt n)) t σ = qtrue (VAtom (AFloat (Fin (IZR n)))) t σ)
  ∧ (∀ (e : PrimFloat.float → PrimFloat.float) (n : Z) (t : PrimFloat.float)
       (σ : pystate PrimFloat.float),
      int64_range n = true →
      qtrue (A := Binary64.binary64 e) (VAtom (AInt n)) t σ
      = qtrue (A := Binary64.binary64 e) (VAtom (AFloat (Binary64.of_int n))) t σ).
Proof.
  split.
  - intros n t σ Hr. destruct (Z.eqb_spec n 0) as [->|Hn].
    + rewrite !qtrue_atom_zero; [done|done|apply ne_zero_zero|done|done].
    + assert (IZR n ≠ 0%R) as Hr' by (by apply not_0_IZR).
      rewrite !qtrue_atom_nonzero; [done|done| |done|].
      * simpl. by rewrite Reqb_false.
      * simpl. by destruct (Z.eqb_spec n 0).
  - intros e n t σ Hr. destruct (Z.eqb_spec n 0) as [->|Hn].
    + by rewrite !qtrue_atom_zero.
    + assert (ne_zero (A := Binary64.binary64 e) (AInt n) = true) as Hz
        by (simpl; by destruct (Z.eqb_spec n 0)).
      rewrite !qtrue_atom_nonzero; [done|done| |done|done].
      simpl. apply negb_true_iff. apply (of_int_nonzero n); [done|done].
Qed.

(** A run of X10: [qtrue(3, 1.0)] and [qtrue(3.0, 1.0)] in binary64. *)
Lemma qtrue_int_as_float_witness :
  qtrue (A := Binary64.binary64 (λ x, x)) (VAtom (AInt 3)) (Binary64.of_int 1)
    (state64 ∅)
  = qtrue (A := Binary64.binary64 (λ x, x)) (VAtom (AFloat (Binary64.of_int 3)))
      (Binary64.of_int 1) (state64 ∅).
Proof. apply (proj2 qtrue_int_as_float). reflexivity. Defined.

(** X11: in binary64 a negative float coordinate raises nothing and gives
    NaN, whatever [t]: [np.sqrt] of a negative number is NaN, and it
    propagates through the quotient and the product. *)
Theorem qtrue_negative_nan_binary64 (e : PrimFloat.float → PrimFloat.float)
        (x t : PrimFloat.float) (σ : pystate PrimFloat.float) :
  PrimFloat.ltb x (Binary64.of_int 0) = true →
  ∃ r, qtrue (A := Binary64.binary64 e) (VAtom (AFloat x)) t σ
       = (Ok (VAtom (AFloat r)), σ)
       ∧ PrimFloat.is_nan r = true.
Proof.
  intros Hx. destruct (profile_value_negative e x t Hx) as [Hz Hnan].
  eexists. split; [|exact Hnan].
  apply (qtrue_atom_nonzero (A := Binary64.binary64 e)); [done|].
  simpl. by rewrite Hz.
Qed.

(** A run of X11: [qtrue(-1.0, 2.0)] in binary64. *)
Lemma qtrue_negative_nan_binary64_witness :
  ∃ r, qtrue (A := Binary64.binary64 (λ x, x)) (VAtom (AFloat (Binary64.of_int (-1))))
         (Binary64.of_int 2) (state64 ∅)
       = (Ok (VAtom (AFloat r)), state64 ∅)
       ∧ PrimFloat.is_nan r = true.
Proof. apply qtrue_negative_nan_binary64. reflexivity. Defined.
